(** * Shell-script rewriting tools: a shallow embedding

    The development embeds three Python scripts:

    - [fix_braces.py]: the reference scanner ([add_braces_to_line]), its
      per-file driver ([fix_file]) and its batch driver ([main]);
    - [refactor_env_injection.py]: the SSH-style env-injection rewrite
      ([refactor_ssh_cloud_script]) and its batch driver;
    - [refactor_sprite_env.py]: the single-agent variant.

    Text is a list of characters.  A character is a code point below 256
    (type [ascii]); the classifications that Python takes from the Unicode
    tables ([str.strip], [\w], [\d]) are written out for that range.
    The file system is a finite map from paths to file contents. *)

From Stdlib Require Import Ascii String List Arith Bool Lia.
From stdpp Require Import gmap strings.
Import ListNotations.

Local Open Scope char_scope.
Local Open Scope list_scope.

(** ** Text and the Python string methods the scripts use *)

Definition text := list ascii.

(** Literal text, written as a Rocq string. *)
Definition str (s : string) : text := list_ascii_of_string s.

Definition code (c : ascii) : nat := nat_of_ascii c.

Definition in_range (lo hi : nat) (c : ascii) : bool :=
  ((lo <=? code c) && (code c <=? hi))%nat.

(** [c in s] for a one-character [c]. *)
Definition char_in (c : ascii) (s : text) : bool := existsb (Ascii.eqb c) s.

Fixpoint text_eqb (a b : text) : bool :=
  match a, b with
  | [], [] => true
  | x :: a', y :: b' => Ascii.eqb x y && text_eqb a' b'
  | _, _ => false
  end.

(** [str.isspace] on one character: 0x09-0x0D, 0x1C-0x20, 0x85, 0xA0. *)
Definition is_space (c : ascii) : bool :=
  in_range 9 13 c || in_range 28 32 c
  || (code c =? 133)%nat || (code c =? 160)%nat.

(** [s.lstrip()] *)
Fixpoint lstrip (s : text) : text :=
  match s with
  | c :: tl => if is_space c then lstrip tl else s
  | [] => []
  end.

(** [s.rstrip()] and [s.strip()] *)
Definition rstrip (s : text) : text := rev (lstrip (rev s)).
Definition strip (s : text) : text := rstrip (lstrip s).

(** [s.startswith(p)] *)
Fixpoint startswith (s p : text) {struct p} : bool :=
  match p with
  | [] => true
  | x :: p' =>
      match s with
      | y :: s' => Ascii.eqb x y && startswith s' p'
      | [] => false
      end
  end.

(** [sub in s]: [sub] occurs somewhere in [s]. *)
Fixpoint contains (s sub : text) : bool :=
  startswith s sub
  || match s with
     | [] => false
     | _ :: tl => contains tl sub
     end.

(** [s.replace(old, new)] for a non-empty [old]: every non-overlapping
    occurrence, left to right.  [skip] counts the characters of an
    occurrence that the cursor still has to pass over. *)
Fixpoint replace_from (old new : text) (skip : nat) (s : text) : text :=
  match s with
  | [] => []
  | c :: tl =>
      match skip with
      | S k => replace_from old new k tl
      | O =>
          if startswith s old
          then new ++ replace_from old new (length old - 1) tl
          else c :: replace_from old new 0 tl
      end
  end.

Definition replace (s old new : text) : text := replace_from old new 0 s.

(** [s.split(sep)] for the newline as [sep]: the pieces between the
    newlines; never an empty list. *)
Definition newline : ascii := "010".
Definition backslash : ascii := ascii_of_nat 92.

Fixpoint split_lines (s : text) : list text :=
  match s with
  | [] => [[]]
  | c :: tl =>
      if Ascii.eqb c newline then [] :: split_lines tl
      else match split_lines tl with
           | piece :: more => (c :: piece) :: more
           | [] => [[c]]
           end
  end.

(** [sep.join(parts)] *)
Fixpoint join (sep : text) (parts : list text) : text :=
  match parts with
  | [] => []
  | [p] => p
  | p :: more => p ++ sep ++ join sep more
  end.

(** The longest prefix whose characters satisfy [f], and what follows it. *)
Fixpoint take_while (f : ascii -> bool) (s : text) : text :=
  match s with
  | c :: tl => if f c then c :: take_while f tl else []
  | [] => []
  end.

(** ** Files

    The store maps a path to the characters of the file.  Python opens
    the files in text mode: reading turns every carriage-return/newline
    pair and every lone carriage return into a newline; writing leaves
    the newline as it is (POSIX). *)

Definition carriage_return : ascii := "013".

Fixpoint universal_newlines (s : text) : text :=
  match s with
  | [] => []
  | c :: tl =>
      if Ascii.eqb c carriage_return then
        newline :: match tl with
                   | c2 :: tl2 =>
                       if Ascii.eqb c2 newline then universal_newlines tl2
                       else universal_newlines tl
                   | [] => []
                   end
      else c :: universal_newlines tl
  end.

(** [f.readlines()]: the lines, each with its newline. *)
Fixpoint readlines (s : text) : list text :=
  match s with
  | [] => []
  | c :: tl =>
      if Ascii.eqb c newline then [c] :: readlines tl
      else match readlines tl with
           | l :: more => (c :: l) :: more
           | [] => [[c]]
           end
  end.

(** [f.writelines(lines)] writes the lines one after the other. *)
Definition writelines (lines : list text) : text := concat lines.

Fixpoint lines_eqb (a b : list text) : bool :=
  match a, b with
  | [], [] => true
  | x :: a', y :: b' => text_eqb x y && lines_eqb a' b'
  | _, _ => false
  end.

(** What a call gives back: a value, or an exception that leaves it. *)
Inductive result (A : Type) : Type :=
| Ret (a : A)
| Raise.
Arguments Ret {A} a.
Arguments Raise {A}.

(** ** fix_braces.py : the reference scanner *)

Module FixBraces.

(** [special_vars] of [should_skip_variable]: a set of one-character names. *)
Definition special_vars : list text :=
  map (fun c => [c]) (str "@*!?$-#0123456789").

Definition should_skip_variable (var_name : text) : bool :=
  existsb (text_eqb var_name) special_vars.

(** The characters tested by [line[i + 1] in '@*!?$-#0123456789']. *)
Definition special_chars : text := str "@*!?$-#0123456789".

Definition ident_start (c : ascii) : bool :=
  in_range 65 90 c || in_range 97 122 c || Ascii.eqb c "_".

Definition ident_char (c : ascii) : bool :=
  ident_start c || in_range 48 57 c.

(** [re.match] of the identifier pattern (a letter or underscore, then
    letters, digits and underscores) against [s]: group 1, when it
    matches.  The star is greedy and nothing follows it, so the group is
    the longest run of identifier characters. *)
Definition match_identifier (s : text) : option text :=
  match s with
  | c :: tl => if ident_start c then Some (c :: take_while ident_char tl) else None
  | [] => None
  end.

(** The [while i < len(line)] loop.  [rest] is [line[i:]], the text from
    the cursor on; the value is what the loop appends to [result] from
    there.  Each round moves the cursor forward, so [length rest] rounds
    are enough ([scan_fuel_enough]). *)
Fixpoint scan (fuel : nat) (rest : text) : text :=
  match fuel with
  | O => []
  | S fuel' =>
      match rest with
      | [] => []
      | c :: tl =>
          match (if Ascii.eqb c "$" then tl else []) with
          | c1 :: tl1 =>
              if Ascii.eqb c1 "{" then
                c :: c1 :: scan fuel' tl1
              else if char_in c1 special_chars then
                c :: c1 :: scan fuel' tl1
              else
                match match_identifier tl with
                | Some var_name =>
                    if negb (should_skip_variable var_name) then
                      str "${" ++ var_name ++ str "}"
                        ++ scan fuel' (skipn (length var_name) tl)
                    else
                      c :: var_name ++ scan fuel' (skipn (length var_name) tl)
                | None => c :: scan fuel' tl
                end
          | [] => c :: scan fuel' tl
          end
      end
  end.

Definition is_comment_line (line : text) : bool :=
  startswith (lstrip line) (str "#").

Definition add_braces_to_line (line : text) : text :=
  if is_comment_line line then line else scan (length line) line.

(** [fix_file].  [bash_n] is the call of the syntax oracle,
    [subprocess.run] of [bash -n] on the file as it is on disk at that
    moment: [Ret true] when the return code is 0, [Ret false] when it is
    not, [Raise] when the call itself raises (no [bash] to start).  Every
    exception inside the [try] goes to the handler, which returns
    [False] and restores nothing: a file that cannot be opened leaves
    the store as it is, and an oracle that raises leaves the rewritten
    text on disk.  The store takes every write: a write that fails, the
    first one or the restoring one, is not modelled. *)
Definition fix_file (bash_n : text -> result bool) (fs : gmap string text)
    (file_path : string) : bool * gmap string text :=
  match fs !! file_path with
  | None => (false, fs)
  | Some on_disk =>
      let lines := readlines (universal_newlines on_disk) in
      let fixed_lines := map add_braces_to_line lines in
      if lines_eqb lines fixed_lines then (false, fs)
      else
        let fs1 := <[file_path := writelines fixed_lines]> fs in
        match bash_n (writelines fixed_lines) with
        | Raise => (false, fs1)
        | Ret accepted =>
            if negb accepted then
              (false, <[file_path := writelines lines]> fs1)
            else (true, fs1)
        end
  end.

(** The loop of [main] over the discovered [shell_files], with
    [fixed_count].  The lint count printed afterwards is not modelled. *)
Fixpoint fix_all (bash_n : text -> result bool) (shell_files : list string)
    (fixed_count : nat) (fs : gmap string text) : nat * gmap string text :=
  match shell_files with
  | [] => (fixed_count, fs)
  | file_path :: more =>
      let '(fixed, fs') := fix_file bash_n fs file_path in
      fix_all bash_n more (if fixed then S fixed_count else fixed_count) fs'
  end.

Definition main (bash_n : text -> result bool) (shell_files : list string)
    (fs : gmap string text) : nat * gmap string text :=
  fix_all bash_n shell_files 0 fs.

(** The script ends with a bare [main()]: whatever the loop counted, the
    interpreter leaves with status 0. *)
Definition exit_status (bash_n : text -> result bool) (shell_files : list string)
    (fs : gmap string text) : nat * gmap string text :=
  (0, snd (main bash_n shell_files fs)).

End FixBraces.

(** ** The part of Python's [re] that the refactor scripts use

    A backtracking matcher in continuation-passing style: alternatives
    are tried left to right, a greedy repeat tries the longer match
    first, a lazy repeat the shorter one, and the first complete match
    found is the result. *)

Module PyRe.

(** The matcher's position in the subject: the character before it (none
    at the start of the subject), its index, and the text from it on. *)
Record cursor : Type := Cursor {
  before : option ascii;
  pos : nat;
  rest : text
}.

Inductive regex : Type :=
| Lit (s : text)                  (* literal characters *)
| AnyChar                         (* [.] under DOTALL *)
| Repeat (greedy : bool) (least : nat) (cls : ascii -> bool)
                                  (* one-character class, repeated *)
| LineStart                       (* [^] under MULTILINE *)
| Seq (r1 r2 : regex)
| Alt (r1 r2 : regex)
| Opt (r : regex)                 (* greedy [?] on a non-capturing group *)
| Group1 (r : regex).             (* the capture group *)

Record match_result : Type := Match {
  m_start : nat;
  m_text : text;                  (* group 0 *)
  m_group1 : option text;         (* group 1, when it took part *)
  m_after : cursor                (* the position after the match *)
}.

Definition m_end (m : match_result) : nat := pos (m_after m).

Definition advance (c : ascii) (tl : text) (cur : cursor) : cursor :=
  Cursor (Some c) (S (pos cur)) tl.

Fixpoint eat (s : text) (cur : cursor) : option cursor :=
  match s with
  | [] => Some cur
  | x :: s' =>
      match rest cur with
      | c :: tl => if Ascii.eqb x c then eat s' (advance c tl cur) else None
      | [] => None
      end
  end.

Definition at_line_start (cur : cursor) : bool :=
  match before cur with
  | None => true
  | Some c => Ascii.eqb c newline
  end.

Definition or_else {R : Type} (a b : option R) : option R :=
  match a with
  | Some x => Some x
  | None => b
  end.

Section Repeats.
Context {R : Type} (cls : ascii -> bool) (k : cursor -> option R).

(** Lazy: once [least] characters are taken, first try to go on with
    the rest of the pattern, and take one more character only when that
    fails. *)
Fixpoint lazy_repeat (least : nat) (b : option ascii) (p : nat) (s : text)
    : option R :=
  let more (least' : nat) :=
    match s with
    | c :: tl => if cls c then lazy_repeat least' (Some c) (S p) tl else None
    | [] => None
    end in
  match least with
  | O => or_else (k (Cursor b p s)) (more 0)
  | S least' => more least'
  end.

(** Greedy: first take one more character, and go on with the rest of
    the pattern from here only when that fails. *)
Fixpoint greedy_repeat (least : nat) (b : option ascii) (p : nat) (s : text)
    : option R :=
  let here := match least with O => k (Cursor b p s) | S _ => None end in
  match s with
  | c :: tl =>
      if cls c then or_else (greedy_repeat (least - 1) (Some c) (S p) tl) here
      else here
  | [] => here
  end.
End Repeats.

Fixpoint rmatch {R : Type} (r : regex) (cur : cursor) (g : option text)
    (k : cursor -> option text -> option R) : option R :=
  match r with
  | Lit s =>
      match eat s cur with
      | Some cur' => k cur' g
      | None => None
      end
  | AnyChar =>
      match rest cur with
      | c :: tl => k (advance c tl cur) g
      | [] => None
      end
  | Repeat true least cls =>
      greedy_repeat cls (fun cur' => k cur' g) least (before cur) (pos cur) (rest cur)
  | Repeat false least cls =>
      lazy_repeat cls (fun cur' => k cur' g) least (before cur) (pos cur) (rest cur)
  | LineStart => if at_line_start cur then k cur g else None
  | Seq r1 r2 => rmatch r1 cur g (fun cur' g' => rmatch r2 cur' g' k)
  | Alt r1 r2 => or_else (rmatch r1 cur g k) (rmatch r2 cur g k)
  | Opt r1 => or_else (rmatch r1 cur g k) (k cur g)
  | Group1 r1 =>
      rmatch r1 cur g
        (fun cur' _ => k cur' (Some (firstn (pos cur' - pos cur) (rest cur))))
  end.

(** One attempt at [cur].  [must_advance] refuses the empty match at the
    position where the previous match of a substitution ended. *)
Definition attempt (r : regex) (must_advance : bool) (cur : cursor)
    : option match_result :=
  rmatch r cur None
    (fun cur' g =>
       if must_advance && (pos cur' =? pos cur)%nat then None
       else Some (Match (pos cur) (firstn (pos cur' - pos cur) (rest cur)) g cur')).

(** The scan for the leftmost match, from [cur] on. *)
Fixpoint search_from (r : regex) (must_advance : bool)
    (b : option ascii) (p : nat) (s : text) : option match_result :=
  or_else (attempt r must_advance (Cursor b p s))
    match s with
    | c :: tl => search_from r false (Some c) (S p) tl
    | [] => None
    end.

(** [pattern.search(content)] *)
Definition search (r : regex) (content : text) : option match_result :=
  search_from r false None 0 content.

(** *** Replacement templates *)

Inductive template_item : Type :=
| Chars (s : text)
| GroupRef (n : nat).

Definition is_digit (c : ascii) : bool := in_range 48 57 c.
Definition is_octal (c : ascii) : bool := in_range 48 55 c.
Definition is_ascii_letter (c : ascii) : bool :=
  in_range 65 90 c || in_range 97 122 c.
Definition digit_value (c : ascii) : nat := code c - 48.

Definition decimal (s : text) : nat :=
  fold_left (fun n c => 10 * n + digit_value c) s 0.
Definition octal (s : text) : nat :=
  fold_left (fun n c => 8 * n + digit_value c) s 0.

(** The escapes that stand for one character. *)
Definition simple_escape (c : ascii) : option ascii :=
  if Ascii.eqb c "a" then Some "007"
  else if Ascii.eqb c "b" then Some "008"
  else if Ascii.eqb c "f" then Some "012"
  else if Ascii.eqb c "n" then Some "010"
  else if Ascii.eqb c "r" then Some "013"
  else if Ascii.eqb c "t" then Some "009"
  else if Ascii.eqb c "v" then Some "011"
  else if Ascii.eqb c backslash then Some backslash
  else None.

(** A reference to group [n] of a pattern with [groups] capture groups. *)
Definition group_ref (groups n : nat) : option template_item :=
  if (n <=? groups)%nat then Some (GroupRef n) else None.

Definition cons_item (i : option template_item)
    (more : option (list template_item)) : option (list template_item) :=
  match i, more with
  | Some i', Some more' => Some (i' :: more')
  | _, _ => None
  end.

(** The text up to the first [>], and what follows it. *)
Fixpoint until_gt (s : text) : option (text * text) :=
  match s with
  | [] => None
  | c :: tl =>
      if Ascii.eqb c ">" then Some ([], tl)
      else match until_gt tl with
           | Some (name, after) => Some (c :: name, after)
           | None => None
           end
  end.

(** The template parser of [re]: [None] when it raises.  The patterns
    here have [groups = 1] and no named group, so a group name that is
    not a decimal number raises.  Each round consumes a character, so
    [length s] rounds are enough ([parse_template_fuel_enough]). *)
Fixpoint parse_template (fuel groups : nat) (s : text)
    : option (list template_item) :=
  match fuel with
  | O => match s with [] => Some [] | _ => None end
  | S fuel' =>
      let go := parse_template fuel' groups in
      match s with
      | [] => Some []
      | c :: tl =>
          if negb (Ascii.eqb c backslash) then cons_item (Some (Chars [c])) (go tl)
          else
            match tl with
            | [] => None                         (* a lone backslash at the end *)
            | e :: tl1 =>
                if Ascii.eqb e "g" then
                  match tl1 with
                  | lt :: tl2 =>
                      if Ascii.eqb lt "<" then
                        match until_gt tl2 with
                        | Some (name, after) =>
                            if negb (forallb is_digit name) then None
                            else match name with
                                 | [] => None
                                 | _ => cons_item (group_ref groups (decimal name))
                                          (go after)
                                 end
                        | None => None
                        end
                      else None
                  | [] => None
                  end
                else if Ascii.eqb e "0" then
                  match tl1 with
                  | d1 :: tl2 =>
                      if is_octal d1 then
                        match tl2 with
                        | d2 :: tl3 =>
                            if is_octal d2 then
                              cons_item
                                (Some (Chars [ascii_of_nat (octal [d1; d2] mod 256)]))
                                (go tl3)
                            else
                              cons_item (Some (Chars [ascii_of_nat (octal [d1])]))
                                (go tl2)
                        | [] =>
                            cons_item (Some (Chars [ascii_of_nat (octal [d1])]))
                              (go tl2)
                        end
                      else cons_item (Some (Chars [ascii_of_nat 0])) (go tl1)
                  | [] => cons_item (Some (Chars [ascii_of_nat 0])) (go tl1)
                  end
                else if is_digit e then
                  match tl1 with
                  | d1 :: tl2 =>
                      if is_digit d1 then
                        match tl2 with
                        | d2 :: tl3 =>
                            if is_octal e && is_octal d1 && is_octal d2 then
                              if (255 <? octal [e; d1; d2])%nat then None
                              else
                                cons_item
                                  (Some (Chars [ascii_of_nat (octal [e; d1; d2])]))
                                  (go tl3)
                            else cons_item (group_ref groups (decimal [e; d1])) (go tl2)
                        | [] => cons_item (group_ref groups (decimal [e; d1])) (go tl2)
                        end
                      else cons_item (group_ref groups (decimal [e])) (go tl1)
                  | [] => cons_item (group_ref groups (decimal [e])) (go tl1)
                  end
                else
                  match simple_escape e with
                  | Some x => cons_item (Some (Chars [x])) (go tl1)
                  | None =>
                      if is_ascii_letter e then None
                      else cons_item (Some (Chars [c; e])) (go tl1)
                  end
            end
      end
  end.

Definition expand_item (m : match_result) (i : template_item) : text :=
  match i with
  | Chars s => s
  | GroupRef 0 => m_text m
  | GroupRef _ => match m_group1 m with Some g => g | None => [] end
  end.

Definition expand (items : list template_item) (m : match_result) : text :=
  concat (map (expand_item m) items).

(** The substitution loop: the text between the cursor and the next
    match, the expanded template, and on from the end of the match.
    After an empty match the next one must advance, so two rounds for
    each character that is left are enough ([sub_from_fuel_enough]). *)
Fixpoint sub_from (fuel : nat) (r : regex) (items : list template_item)
    (must_advance : bool) (cur : cursor) : text :=
  match fuel with
  | O => rest cur
  | S fuel' =>
      match search_from r must_advance (before cur) (pos cur) (rest cur) with
      | None => rest cur
      | Some m =>
          firstn (m_start m - pos cur) (rest cur)
            ++ expand items m
            ++ sub_from fuel' r items (m_end m =? m_start m)%nat (m_after m)
      end
  end.

(** [pattern.sub(repl, content)] for a pattern with one capture group;
    [Raise] when the template is refused. *)
Definition sub (r : regex) (repl content : text) : result text :=
  match parse_template (length repl) 1 repl with
  | None => Raise
  | Some items =>
      Ret (sub_from (2 * length content + 2) r items false (Cursor None 0 content))
  end.

End PyRe.

Import PyRe.

(** ** What the two refactor scripts share textually *)

(** The double quote character, and text between double quotes. *)
Definition Q : text := [ascii_of_nat 34].
Definition dq (s : text) : text := Q ++ s ++ Q.

(** A line: the text and its newline. *)
Definition ln (s : text) : text := s ++ [newline].

(** A sequence of patterns. *)
Definition seq (rs : list regex) : regex := fold_right Seq (Lit []) rs.

Definition any_char (c : ascii) : bool := true.

(** [\d] and [\w] on code points below 256. *)
Definition digit_class (c : ascii) : bool := in_range 48 57 c.

Definition word_class (c : ascii) : bool :=
  in_range 48 57 c || in_range 65 90 c || in_range 97 122 c || Ascii.eqb c "_"
  || (code c =? 170)%nat || in_range 178 179 c || (code c =? 181)%nat
  || in_range 185 186 c || in_range 188 190 c
  || in_range 192 214 c || in_range 216 246 c || in_range 248 255 c.

(** A name of letters, digits and underscores. *)
Definition word_name (name : text) : bool := forallb FixBraces.ident_char name.

(** Pieces of the patterns.  In the source the dot of [~/.zshrc] is not
    escaped, so it stands for any character. *)
Definition log_warn_line : text :=
  ln (str "log_warn " ++ dq (str "Setting up environment variables...")).

Definition env_temp_lines : text :=
  ln (str "ENV_TEMP=$(mktemp)")
  ++ ln (str "chmod 600 " ++ dq (str "$ENV_TEMP"))
  ++ ln (str "cat > " ++ dq (str "$ENV_TEMP") ++ str " << EOF").

Definition heredoc_body : regex := Group1 (Repeat false 0 any_char).

Definition eof_line : regex := Seq LineStart (Lit (ln (str "EOF"))).

Definition rm_env_temp_line : text := ln (str "rm " ++ dq (str "$ENV_TEMP")).

(** The extraction loop over the heredoc body, as both scripts have it:
    first the value of [var_line] after the four replacements. *)
Definition var_line (line : text) : text :=
  let var_line := replace line (str "export ") [] in
  let var_line := replace var_line (dq (str "${OPENROUTER_API_KEY}"))
                    (str "$OPENROUTER_API_KEY") in
  let var_line := replace var_line (str "${OPENROUTER_API_KEY}")
                    (str "$OPENROUTER_API_KEY") in
  replace var_line (str "${MODEL_ID}") (str "$MODEL_ID").

(** The f-string that puts [var_line] between double quotes. *)
Definition export_argument (line : text) : text := dq (var_line line).

Definition heredoc_env_vars (heredoc_content : text) : list text :=
  fold_left
    (fun env_vars line =>
       let line := strip line in
       if startswith line (str "export ")
       then env_vars ++ [export_argument line]
       else env_vars)
    (split_lines heredoc_content) [].

(** [env_args]: the arguments, one per continuation line. *)
Definition continuation : text :=
  str " " ++ [backslash; newline] ++ str "    ".
Definition env_args (env_vars : list text) : text := join continuation env_vars.

(** ** refactor_env_injection.py *)

Module RefactorEnv.

(** The two heredoc openers that [extract_env_vars] looks for. *)
Definition env_temp_opener : text :=
  str "cat > " ++ dq (str "$ENV_TEMP") ++ str " << EOF".
Definition settings_temp_opener : text :=
  str "cat > " ++ dq (str "$SETTINGS_TEMP") ++ str " << EOF".

(** The loop of [extract_env_vars] over the lines of the content, with
    its flag [in_heredoc] and its list [env_vars]; [break] ends it. *)
Fixpoint extract_loop (lines : list text) (in_heredoc : bool)
    (env_vars : list text) : list text :=
  match lines with
  | [] => env_vars
  | line :: more =>
      if contains line env_temp_opener || contains line settings_temp_opener
      then extract_loop more true env_vars
      else if in_heredoc && text_eqb (strip line) (str "EOF")
      then env_vars
      else if in_heredoc && startswith (strip line) (str "export ")
      then extract_loop more in_heredoc (env_vars ++ [var_line (strip line)])
      else extract_loop more in_heredoc env_vars
  end.

Definition extract_env_vars (content : text) : list text :=
  extract_loop (split_lines content) false [].

(** The upload and run statements.  The source splices [server_ip_var]
    into the text of the pattern as it is, so the pattern reads it
    literally only when it holds no character that means something in a
    pattern.  [Lit server_ip_var] is the pattern for a [word_name], which
    is what [main] passes; for another name (one with a dot, a bar or a
    parenthesis) the source compiles a different pattern or none at all,
    and this model says nothing about it. *)
Definition upload_run_lines (server_ip_var : text) : regex :=
  seq [ Lit (ln (str "upload_file " ++ dq ("$" :: server_ip_var) ++ str " "
                 ++ dq (str "$ENV_TEMP") ++ str " " ++ dq (str "/tmp/env_config")));
        Lit (str "run_server " ++ dq ("$" :: server_ip_var) ++ str " " ++ Q
             ++ str "cat /tmp/env_config >> ~/");
        AnyChar;
        Lit (ln (str "zshrc && rm /tmp/env_config" ++ Q));
        Lit rm_env_temp_line ].

(** Pattern 1: with a comment header and blank lines. *)
Definition pattern1 (server_ip_var : text) : regex :=
  seq [ Lit (str "# ");
        Alt (Seq (Repeat true 1 digit_class) (Lit (str ".")))
            (Seq (Repeat true 1 word_class) (Lit (str ":")));
        Lit (str " ");
        Alt (Lit (str "Inject environment variables"))
            (Lit (str "Setting up environment variables"));
        Repeat false 0 any_char;
        Lit [newline];
        Lit log_warn_line;
        Lit [newline];
        Lit env_temp_lines;
        heredoc_body;
        eof_line;
        Lit [newline];
        upload_run_lines server_ip_var ].

(** Pattern 2: compact, without the header. *)
Definition pattern2 (server_ip_var : text) : regex :=
  seq [ Lit log_warn_line;
        Lit env_temp_lines;
        heredoc_body;
        eof_line;
        upload_run_lines server_ip_var ].

Definition replacement (server_ip_var : text) (env_vars : list text) : text :=
  log_warn_line
  ++ ln (str "inject_env_vars_ssh " ++ dq ("$" :: server_ip_var)
         ++ str " upload_file run_server " ++ [backslash])
  ++ ln (str "    " ++ env_args env_vars).

(** [refactor_ssh_cloud_script].  Reading a missing file raises, and so
    does a replacement that [re] refuses as a template; nothing in the
    function catches either. *)
Definition refactor_ssh_cloud_script (fs : gmap string text)
    (filepath : string) (server_ip_var : text)
    : result bool * gmap string text :=
  match fs !! filepath with
  | None => (Raise, fs)
  | Some on_disk =>
      let content := universal_newlines on_disk in
      let pattern :=
        match search (pattern1 server_ip_var) content with
        | Some _ => pattern1 server_ip_var
        | None => pattern2 server_ip_var
        end in
      match search pattern content with
      | None => (Ret false, fs)
      | Some m =>
          match m_group1 m with
          | None => (Raise, fs)
          | Some heredoc_content =>
              let env_vars := heredoc_env_vars heredoc_content in
              match env_vars with
              | [] => (Ret false, fs)
              | _ :: _ =>
                  match sub pattern (replacement server_ip_var env_vars) content with
                  | Raise => (Raise, fs)
                  | Ret new_content =>
                      if text_eqb new_content content then (Ret false, fs)
                      else (Ret true, <[filepath := new_content]> fs)
                  end
              end
          end
      end
  end.

(** [cloud_configs], in the order of the dictionary. *)
Definition cloud_configs : list (string * text) :=
  [ ("digitalocean"%string, str "DO_SERVER_IP");
    ("hetzner"%string, str "HETZNER_SERVER_IP");
    ("linode"%string, str "LINODE_SERVER_IP");
    ("vultr"%string, str "VULTR_SERVER_IP") ].

(** The counters of [main] and the store, or the exception that ended
    the run (with the store as it was then). *)
Definition run : Type := result (nat * nat) * gmap string text.

(** The inner loop over the scripts of one cloud directory; [scripts] are
    the file names that [glob] yields there. *)
Fixpoint refactor_scripts (cloud : string) (ip_var : text)
    (scripts : list string) (total success : nat) (fs : gmap string text)
    : run :=
  match scripts with
  | [] => (Ret (total, success), fs)
  | name :: more =>
      if String.prefix "lib" name
      then refactor_scripts cloud ip_var more total success fs
      else
        match refactor_ssh_cloud_script fs (cloud +:+ "/" +:+ name) ip_var with
        | (Raise, fs') => (Raise, fs')
        | (Ret ok, fs') =>
            refactor_scripts cloud ip_var more (S total)
              (if ok then S success else success) fs'
        end
  end.

(** The outer loop.  [glob cloud] is [None] when the directory does not
    exist, and otherwise the names of its shell scripts. *)
Fixpoint refactor_clouds (glob : string -> option (list string))
    (configs : list (string * text)) (total success : nat)
    (fs : gmap string text) : run :=
  match configs with
  | [] => (Ret (total, success), fs)
  | (cloud, ip_var) :: more =>
      match glob cloud with
      | None => refactor_clouds glob more total success fs
      | Some scripts =>
          match refactor_scripts cloud ip_var scripts total success fs with
          | (Raise, fs') => (Raise, fs')
          | (Ret (total', success'), fs') =>
              refactor_clouds glob more total' success' fs'
          end
      end
  end.

(** [main]: 0 when every script counted was refactored, else 1. *)
Definition main (glob : string -> option (list string))
    (fs : gmap string text) : result nat * gmap string text :=
  match refactor_clouds glob cloud_configs 0 0 fs with
  | (Raise, fs') => (Raise, fs')
  | (Ret (total, success), fs') =>
      (Ret (if (success =? total)%nat then 0 else 1), fs')
  end.

(** [sys.exit(main())]: the value of [main], or 1 after a traceback. *)
Definition exit_status (glob : string -> option (list string))
    (fs : gmap string text) : nat * gmap string text :=
  match main glob fs with
  | (Ret status, fs') => (status, fs')
  | (Raise, fs') => (1, fs')
  end.

End RefactorEnv.

(** ** refactor_sprite_env.py *)

Module RefactorSprite.

Definition pattern : regex :=
  seq [ Lit (ln (str "# Inject environment variables"));
        Lit log_warn_line;
        Lit [newline];
        Opt (Lit (ln (str "# Create temp file with env config")));
        Lit env_temp_lines;
        heredoc_body;
        eof_line;
        Lit [newline];
        Opt (Lit (ln (str "# Upload and append to zshrc")));
        Lit (str "sprite exec -s " ++ dq (str "$SPRITE_NAME") ++ str " -file "
             ++ dq (str "$ENV_TEMP:/tmp/env_config") ++ str " -- bash -c " ++ Q
             ++ str "cat /tmp/env_config >> ~/");
        AnyChar;
        Lit (ln (str "zshrc && rm /tmp/env_config" ++ Q));
        Lit rm_env_temp_line ].

Definition replacement (env_vars : list text) : text :=
  log_warn_line
  ++ ln (str "inject_env_vars_sprite " ++ dq (str "$SPRITE_NAME")
         ++ str " " ++ [backslash])
  ++ ln (str "    " ++ env_args env_vars).

Definition refactor_sprite_script (fs : gmap string text) (filepath : string)
    : result bool * gmap string text :=
  match fs !! filepath with
  | None => (Raise, fs)
  | Some on_disk =>
      let content := universal_newlines on_disk in
      match search pattern content with
      | None => (Ret false, fs)
      | Some m =>
          match m_group1 m with
          | None => (Raise, fs)
          | Some heredoc_content =>
              let env_vars := heredoc_env_vars heredoc_content in
              match env_vars with
              | [] => (Ret false, fs)
              | _ :: _ =>
                  match sub pattern (replacement env_vars) content with
                  | Raise => (Raise, fs)
                  | Ret new_content =>
                      if text_eqb new_content content then (Ret false, fs)
                      else (Ret true, <[filepath := new_content]> fs)
                  end
              end
          end
      end
  end.

Fixpoint refactor_scripts (scripts : list string) (total success : nat)
    (fs : gmap string text) : result (nat * nat) * gmap string text :=
  match scripts with
  | [] => (Ret (total, success), fs)
  | name :: more =>
      if String.prefix "lib" name
      then refactor_scripts more total success fs
      else
        match refactor_sprite_script fs ("sprite/" +:+ name) with
        | (Raise, fs') => (Raise, fs')
        | (Ret ok, fs') =>
            refactor_scripts more (S total)
              (if ok then S success else success) fs'
        end
  end.

(** [main]; [glob] is [None] when the [sprite] directory does not exist. *)
Definition main (glob : option (list string)) (fs : gmap string text)
    : result nat * gmap string text :=
  match glob with
  | None => (Ret 1, fs)
  | Some scripts =>
      match refactor_scripts scripts 0 0 fs with
      | (Raise, fs') => (Raise, fs')
      | (Ret (total, success), fs') =>
          (Ret (if (success =? total)%nat then 0 else 1), fs')
      end
  end.

Definition exit_status (glob : option (list string)) (fs : gmap string text)
    : nat * gmap string text :=
  match main glob fs with
  | (Ret status, fs') => (status, fs')
  | (Raise, fs') => (1, fs')
  end.

End RefactorSprite.

(** ** Notions used to state the properties *)

Import FixBraces.

(** The scanner on a whole line, without the comment test. *)
Definition scan_line (line : text) : text := scan (length line) line.

(** [brace_inserted l o]: [o] is [l] with opening and closing braces
    inserted, and nothing else changed. *)
Inductive brace_inserted : text -> text -> Prop :=
| bi_nil : brace_inserted [] []
| bi_keep c l o : brace_inserted l o -> brace_inserted (c :: l) (c :: o)
| bi_open l o : brace_inserted l o -> brace_inserted l ("{" :: o)
| bi_close l o : brace_inserted l o -> brace_inserted l ("}" :: o).

(** An identifier: a letter or underscore, then letters, digits and
    underscores. *)
Definition is_identifier (name : text) : bool :=
  match name with
  | c :: w => ident_start c && forallb ident_char w
  | [] => false
  end.

(** [s] does not go on with an identifier character. *)
Definition ends_identifier (s : text) : bool :=
  match s with
  | c :: _ => negb (ident_char c)
  | [] => true
  end.

(** [s] does not end with the sigil. *)
Definition no_trailing_sigil (s : text) : bool :=
  match rev s with
  | c :: _ => negb (Ascii.eqb c "$")
  | [] => true
  end.

(** Some sigil of [s] is directly followed by the start of an identifier:
    an unbracketed reference to an ordinary variable. *)
Fixpoint has_unbracketed_reference (s : text) : bool :=
  match s with
  | c :: tl =>
      (Ascii.eqb c "$" && match tl with c1 :: _ => ident_start c1 | [] => false end)
      || has_unbracketed_reference tl
  | [] => false
  end.

(** The tokens of the scanner domain, as the specification names them: a
    classified occurrence within one line. *)
Inductive VariableToken : Type :=
| AlreadyBracketed
| SpecialSigil (c : ascii)
| IdentifierReference (name : text)
| LiteralCharacter (c : ascii).

(** The text of an occurrence in the line, and the text that the
    contract asks for in its place: the bracketed form for a reference to
    an identifier, the occurrence itself for every other one. *)
Definition occurrence (t : VariableToken) : text :=
  match t with
  | AlreadyBracketed => str "${"
  | SpecialSigil c => ["$"; c]
  | IdentifierReference name => "$" :: name
  | LiteralCharacter c => [c]
  end.

Definition bracketed_equivalent (t : VariableToken) : text :=
  match t with
  | IdentifierReference name => str "${" ++ name ++ str "}"
  | _ => occurrence t
  end.

(** [l] goes on with something that makes a sigil before it a reference:
    an open brace, a special character or the start of an identifier. *)
Definition starts_reference (l : text) : bool :=
  match l with
  | c :: _ => Ascii.eqb c "{" || char_in c special_chars || ident_start c
  | [] => false
  end.

(** The classification of the occurrences of a line, left to right, in
    the words of the specification: a sigil with an open brace is an
    already bracketed reference; a sigil with a special character is a
    special sigil; a sigil with a maximal identifier is a reference to
    that identifier; every other character, a sigil that starts none of
    these included, is a literal character. *)
Inductive classified : text -> list VariableToken -> Prop :=
| cl_end : classified [] []
| cl_bracketed l ts :
    classified l ts -> classified ("$" :: "{" :: l) (AlreadyBracketed :: ts)
| cl_special c l ts :
    char_in c special_chars = true -> classified l ts ->
    classified ("$" :: c :: l) (SpecialSigil c :: ts)
| cl_identifier name l ts :
    is_identifier name = true -> ends_identifier l = true -> classified l ts ->
    classified ("$" :: name ++ l) (IdentifierReference name :: ts)
| cl_literal c l ts :
    (Ascii.eqb c "$" && starts_reference l) = false -> classified l ts ->
    classified (c :: l) (LiteralCharacter c :: ts).

(** The export lines of a heredoc body: its lines, trimmed, that begin
    with the keyword and a space. *)
Definition export_lines (heredoc_content : text) : list text :=
  List.filter (fun line => startswith line (str "export "))
    (map strip (split_lines heredoc_content)).

(** The two upstream variables that the extractor knows, and the three
    forms of a reference to a variable. *)
Inductive upstream : Type := OPENROUTER_API_KEY | MODEL_ID.

Definition upstream_name (v : upstream) : text :=
  match v with
  | OPENROUTER_API_KEY => str "OPENROUTER_API_KEY"
  | MODEL_ID => str "MODEL_ID"
  end.

Inductive reference_form : Type := QuotedBracketed | Bracketed | Bare.

Definition reference (f : reference_form) (name : text) : text :=
  match f with
  | QuotedBracketed => dq (str "${" ++ name ++ str "}")
  | Bracketed => str "${" ++ name ++ str "}"
  | Bare => "$" :: name
  end.

(** [line.replace('export ', '')] *)
Definition keyword_removed (s : text) : text := replace s (str "export ") [].

(** [s.endswith(p)] *)
Definition endswith (s p : text) : bool := startswith (rev s) (rev p).

(** A condition under which the three literal replacements turn the
    reference into the bare form and nothing else, given the text before
    and after it on the line (after the removal of the keyword).  The
    double-quoted bracketed form of [MODEL_ID] is not among the
    replacements.  A bracketed reference to [OPENROUTER_API_KEY] directly
    between two double quotes can be taken for the double-quoted form,
    which takes the quotes away.  The opening quote of a double-quoted
    form that directly follows the same form without its closing quote
    can be taken for that closing quote. *)
Definition canonicalized (v : upstream) (f : reference_form)
    (before after : text) : bool :=
  match v, f with
  | OPENROUTER_API_KEY, QuotedBracketed =>
      negb (endswith before (Q ++ str "${OPENROUTER_API_KEY}"))
  | OPENROUTER_API_KEY, Bracketed =>
      negb (endswith before Q && startswith after Q)
  | OPENROUTER_API_KEY, Bare => true
  | MODEL_ID, QuotedBracketed => false
  | MODEL_ID, _ => true
  end.

(** The trimmed export line with a reference between [pre] and [suf]. *)
Definition export_with (pre : text) (v : upstream) (f : reference_form)
    (suf : text) : text :=
  str "export " ++ pre ++ reference f (upstream_name v) ++ suf.

(** [old] and [w] differ at a position that both have. *)
Fixpoint clash (w old : text) : bool :=
  match w, old with
  | c :: w', o :: old' => negb (Ascii.eqb o c) || clash w' old'
  | _, _ => false
  end.

(** No occurrence of [old] starts in [w], whatever follows [w]. *)
Fixpoint no_occurrence_starts (old w : text) : bool :=
  match w with
  | [] => true
  | _ :: w' => clash w old && no_occurrence_starts old w'
  end.

(** The first character of [b], if any, is not in [s]. *)
Definition first_not_in (b s : text) : bool :=
  match b with
  | [] => true
  | y :: _ => negb (char_in y s)
  end.

Definition no_carriage_return (s : text) : bool :=
  forallb (fun c => negb (Ascii.eqb c carriage_return)) s.

(** The pattern that [refactor_ssh_cloud_script] settles on, and its
    first match: pattern 1 when it matches, else pattern 2. *)
Definition idiom_match (server_ip_var content : text)
    : option (regex * match_result) :=
  match search (RefactorEnv.pattern1 server_ip_var) content with
  | Some m => Some (RefactorEnv.pattern1 server_ip_var, m)
  | None =>
      match search (RefactorEnv.pattern2 server_ip_var) content with
      | Some m => Some (RefactorEnv.pattern2 server_ip_var, m)
      | None => None
      end
  end.

(** The scripts that [RefactorEnv.main] counts, in the order in which it
    meets them, each with its server variable. *)
Definition candidates (glob : string -> option (list string))
    (configs : list (string * text)) : list (string * text) :=
  flat_map
    (fun '(cloud, ip_var) =>
       match glob cloud with
       | None => []
       | Some scripts =>
           map (fun name => (cloud +:+ "/" +:+ name, ip_var))
             (List.filter (fun name => negb (String.prefix "lib" name)) scripts)
       end)
    configs.

(** The per-file runs one after the other, up to the first exception:
    what each returned, and the store at the end. *)
Fixpoint run_candidates (cands : list (string * text)) (fs : gmap string text)
    : list (result bool) * gmap string text :=
  match cands with
  | [] => ([], fs)
  | (filepath, ip_var) :: more =>
      match RefactorEnv.refactor_ssh_cloud_script fs filepath ip_var with
      | (Raise, fs') => ([Raise], fs')
      | (Ret ok, fs') =>
          let '(outcomes, fs'') := run_candidates more fs' in
          (Ret ok :: outcomes, fs'')
      end
  end.

Definition transformed (outcome : result bool) : bool :=
  match outcome with
  | Ret true => true
  | _ => false
  end.

(** The cursor at index [p] of [content]. *)
Definition cursor_at (content : text) (p : nat) : cursor :=
  Cursor (match p with O => None | S q => nth_error content q end)
         p (skipn p content).

(** A cursor that lies in [content]. *)
Definition cursor_in (content : text) (cur : cursor) : Prop :=
  pos cur <= length content /\ cur = cursor_at content (pos cur).

(** The result [x] came from the continuation [k], called at a cursor of
    [content] that is at or after [cur]. *)
Definition continues {R : Type} (content : text) (cur : cursor)
    (k : cursor -> option R) (x : R) : Prop :=
  exists cur', cursor_in content cur' /\ pos cur <= pos cur' /\ k cur' = Some x.

(** Every match of [r] goes through its capture group. *)
Fixpoint sets_group (r : regex) : bool :=
  match r with
  | Group1 _ => true
  | Seq r1 r2 => sets_group r1 || sets_group r2
  | Alt r1 r2 => sets_group r1 && sets_group r2
  | _ => false
  end.

(** A replacement that the template parser takes as it is: each of its
    backslashes is followed by a character that is neither a letter, nor
    a digit, nor a backslash. *)
Definition kept_escape (c : ascii) : bool :=
  negb (is_ascii_letter c || is_digit c || Ascii.eqb c backslash).

Fixpoint plain_template (after_backslash : bool) (s : text) : bool :=
  match s with
  | [] => negb after_backslash
  | c :: tl =>
      if after_backslash then kept_escape c && plain_template false tl
      else plain_template (Ascii.eqb c backslash) tl
  end.

Definition no_backslash (s : text) : bool :=
  forallb (fun c => negb (Ascii.eqb c backslash)) s.

(** The counters after a run: how many scripts it counted and how many
    were refactored; nothing when the run ended in an exception. *)
Fixpoint tally (outcomes : list (result bool)) : option (nat * nat) :=
  match outcomes with
  | [] => Some (0, 0)
  | Raise :: _ => None
  | Ret ok :: more =>
      match tally more with
      | Some (total, success) =>
          Some (S total, if ok then S success else success)
      | None => None
      end
  end.

(** The counters of [main] after a run that started from [total] and
    [success]. *)
Definition finish (total success : nat)
    (r : list (result bool) * gmap string text) : RefactorEnv.run :=
  (match tally (fst r) with
   | Some (n, k) => Ret (total + n, success + k)
   | None => Raise
   end, snd r).

(** Some sigil of [s] starts an unbracketed reference to an ordinary
    variable and is not itself directly preceded by a sigil
    ([after_sigil] tells whether a sigil comes directly before [s]). *)
Fixpoint reference_left (after_sigil : bool) (s : text) : bool :=
  match s with
  | c :: tl =>
      (Ascii.eqb c "$" && negb after_sigil
       && match tl with c1 :: _ => ident_start c1 | [] => false end)
      || reference_left (Ascii.eqb c "$") tl
  | [] => false
  end.

Definition no_sigil (s : text) : bool :=
  forallb (fun c => negb (Ascii.eqb c "$")) s.

Definition no_newline (s : text) : bool :=
  forallb (fun c => negb (Ascii.eqb c newline)) s.

(** The shape of what [readlines] gives: lines without a newline inside,
    each ended by its newline, except that the last one may lack it and
    is then not empty. *)
Inductive lines_shape : list text -> Prop :=
| ls_nil : lines_shape []
| ls_last body :
    no_newline body = true -> body <> [] -> lines_shape [body]
| ls_cons body more :
    no_newline body = true -> lines_shape more ->
    lines_shape ((body ++ [newline]) :: more).

(** A line that contains neither heredoc opener. *)
Definition no_opener (line : text) : bool :=
  negb (contains line RefactorEnv.env_temp_opener
        || contains line RefactorEnv.settings_temp_opener).

(** The scripts that [RefactorSprite.main] counts, and its per-file runs
    one after the other, up to the first exception. *)
Definition sprite_candidates (scripts : list string) : list string :=
  map (fun name => "sprite/" +:+ name)
    (List.filter (fun name => negb (String.prefix "lib" name)) scripts).

Fixpoint sprite_run (cands : list string) (fs : gmap string text)
    : list (result bool) * gmap string text :=
  match cands with
  | [] => ([], fs)
  | filepath :: more =>
      match RefactorSprite.refactor_sprite_script fs filepath with
      | (Raise, fs') => ([Raise], fs')
      | (Ret ok, fs') =>
          let '(outcomes, fs'') := sprite_run more fs' in
          (Ret ok :: outcomes, fs'')
      end
  end.

(** ** Sample scripts *)

(** The compact form of the idiom, with the lines of its heredoc body. *)
Definition idiom_block_for (server_ip_var : text) (body : list text) : text :=
  log_warn_line
  ++ env_temp_lines
  ++ concat (map ln body)
  ++ ln (str "EOF")
  ++ ln (str "upload_file " ++ dq ("$" :: server_ip_var) ++ str " "
         ++ dq (str "$ENV_TEMP") ++ str " " ++ dq (str "/tmp/env_config"))
  ++ ln (str "run_server " ++ dq ("$" :: server_ip_var) ++ str " "
         ++ dq (str "cat /tmp/env_config >> ~/.zshrc && rm /tmp/env_config"))
  ++ rm_env_temp_line.

Definition idiom_block : list text -> text := idiom_block_for (str "HOST_IP").

(** Scenario C: two export lines. *)
Definition sample_script : text :=
  ln (str "#!/bin/bash")
  ++ idiom_block [ str "export A=1";
                   str "export B=" ++ dq (str "${OPENROUTER_API_KEY}") ]
  ++ ln (str "echo done").

Definition sample_rewritten : text :=
  ln (str "#!/bin/bash")
  ++ log_warn_line
  ++ ln (str "inject_env_vars_ssh " ++ dq (str "$HOST_IP")
         ++ str " upload_file run_server " ++ [backslash])
  ++ ln (str "    " ++ dq (str "A=1") ++ str " " ++ [backslash])
  ++ ln (str "    " ++ dq (str "B=$OPENROUTER_API_KEY"))
  ++ ln (str "echo done").

(** The idiom without any export line in its body. *)
Definition sample_no_exports : text :=
  idiom_block [ str "# nothing to export" ].

(** The idiom twice, with different bodies. *)
Definition sample_two_blocks : text :=
  idiom_block [ str "export A=1" ]
  ++ ln (str "echo between")
  ++ idiom_block [ str "export B=2" ].

Definition sample_two_blocks_rewritten : text :=
  log_warn_line
  ++ ln (str "inject_env_vars_ssh " ++ dq (str "$HOST_IP")
         ++ str " upload_file run_server " ++ [backslash])
  ++ ln (str "    " ++ dq (str "A=1"))
  ++ ln (str "echo between")
  ++ log_warn_line
  ++ ln (str "inject_env_vars_ssh " ++ dq (str "$HOST_IP")
         ++ str " upload_file run_server " ++ [backslash])
  ++ ln (str "    " ++ dq (str "A=1")).

(** A cloud directory with a script and a library script, both with the
    idiom. *)
Definition sample_store_with_lib : gmap string text :=
  {[ "hetzner/a.sh"%string :=
       idiom_block_for (str "HETZNER_SERVER_IP") [ str "export A=1" ] ;
     "hetzner/lib_common.sh"%string :=
       idiom_block_for (str "HETZNER_SERVER_IP") [ str "export A=1" ] ]}.

Definition sample_glob_with_lib (cloud : string) : option (list string) :=
  if String.eqb cloud "hetzner"
  then Some ["a.sh"%string; "lib_common.sh"%string]
  else None.

(** The idiom with a value that holds a backslash and a letter that is no
    escape of a replacement template, and with one that holds the escape
    of the tabulator. *)
Definition sample_bad_escape : text :=
  ln (str "#!/bin/bash")
  ++ idiom_block [ str "export A=" ++ [backslash] ++ str "q" ].

Definition sample_tab_escape : text :=
  ln (str "#!/bin/bash")
  ++ idiom_block [ str "export A=a" ++ [backslash] ++ str "tb" ]
  ++ ln (str "echo done").

Definition tabulator : ascii := "009".

(** The file that the rewrite leaves for [sample_tab_escape]. *)
Definition sample_tab_escape_rewritten : text :=
  ln (str "#!/bin/bash")
  ++ RefactorEnv.replacement (str "HOST_IP")
       [ dq (str "A=a" ++ [tabulator] ++ str "b") ]
  ++ ln (str "echo done").

(** Scenario A, classified. *)
Definition scenario_A_tokens : list VariableToken :=
  map LiteralCharacter (str "echo ")
  ++ [IdentifierReference (str "FOO")]
  ++ map LiteralCharacter (str " and ")
  ++ [SpecialSigil "1"]
  ++ map LiteralCharacter (str " and ")
  ++ [AlreadyBracketed]
  ++ map LiteralCharacter (str "BAR}").

(** An export line [export KEY=value]. *)
Definition export_line (key value : text) : text :=
  str "export " ++ key ++ "=" :: value.

(** Scenario D: the script of scenario C without the heredoc terminator. *)
Definition sample_unterminated : text :=
  ln (str "#!/bin/bash")
  ++ log_warn_line
  ++ env_temp_lines
  ++ ln (str "export A=1")
  ++ ln (str "export B=" ++ dq (str "${OPENROUTER_API_KEY}"))
  ++ ln (str "upload_file " ++ dq (str "$HOST_IP") ++ str " "
         ++ dq (str "$ENV_TEMP") ++ str " " ++ dq (str "/tmp/env_config"))
  ++ ln (str "run_server " ++ dq (str "$HOST_IP") ++ str " "
         ++ dq (str "cat /tmp/env_config >> ~/.zshrc && rm /tmp/env_config"))
  ++ rm_env_temp_line
  ++ ln (str "echo done").

(** A sprite script with the idiom and both of its optional comments. *)
Definition sample_sprite : text :=
  ln (str "# Inject environment variables")
  ++ log_warn_line
  ++ [newline]
  ++ ln (str "# Create temp file with env config")
  ++ env_temp_lines
  ++ ln (str "export MODEL=${MODEL_ID}")
  ++ ln (str "EOF")
  ++ [newline]
  ++ ln (str "# Upload and append to zshrc")
  ++ ln (str "sprite exec -s " ++ dq (str "$SPRITE_NAME") ++ str " -file "
         ++ dq (str "$ENV_TEMP:/tmp/env_config") ++ str " -- bash -c "
         ++ dq (str "cat /tmp/env_config >> ~/.zshrc && rm /tmp/env_config"))
  ++ rm_env_temp_line
  ++ ln (str "echo done").

Definition sample_sprite_rewritten : text :=
  log_warn_line
  ++ ln (str "inject_env_vars_sprite " ++ dq (str "$SPRITE_NAME")
         ++ str " " ++ [backslash])
  ++ ln (str "    " ++ dq (str "MODEL=$MODEL_ID"))
  ++ ln (str "echo done").

(** Two scripts of one cloud directory: the first has the idiom, the
    second does not. *)
Definition sample_store : gmap string text :=
  {[ "hetzner/a.sh"%string :=
       idiom_block_for (str "HETZNER_SERVER_IP") [ str "export A=1" ] ;
     "hetzner/b.sh"%string := ln (str "echo nothing to do") ]}.

Definition sample_glob (cloud : string) : option (list string) :=
  if String.eqb cloud "hetzner" then Some ["a.sh"%string; "b.sh"%string] else None.

(** An oracle that rejects every file. *)
Definition reject_all (on_disk : text) : result bool := Ret false.
Definition accept_all (on_disk : text) : result bool := Ret true.
(** An oracle that cannot be started. *)
Definition no_oracle (on_disk : text) : result bool := Raise.

(** * Properties of the reference scanner *)

Ltac each_char c :=
  destruct c as [[] [] [] [] [] [] [] []].

Lemma scan_fuel_enough n m l :
  length l <= n -> length l <= m -> scan n l = scan m l.
Proof.
  revert m l. induction n as [|n IH]; intros m l Hn Hm.
  - destruct l; simpl in Hn; [|lia]. destruct m; reflexivity.
  - destruct m as [|m]; [destruct l; simpl in Hm; [reflexivity|lia]|].
    destruct l as [|c tl]; [reflexivity|]. simpl in Hn, Hm.
    cbn [scan].
    destruct (Ascii.eqb c "$"); [destruct tl as [|c1 tl1]|].
    + f_equal. apply IH; simpl; lia.
    + simpl in Hn, Hm.
      destruct (Ascii.eqb c1 "{"); [do 2 f_equal; apply IH; lia|].
      destruct (char_in c1 special_chars); [do 2 f_equal; apply IH; lia|].
      destruct (match_identifier (c1 :: tl1)) as [var_name|].
      * pose proof (Hskip := fun k => length_skipn k (c1 :: tl1)).
        assert (Hrec : scan n (skipn (length var_name) (c1 :: tl1))
                       = scan m (skipn (length var_name) (c1 :: tl1))).
        { apply IH; rewrite Hskip; simpl; lia. }
        rewrite Hrec. reflexivity.
      * f_equal. apply IH; simpl; lia.
    + f_equal. apply IH; lia.
Qed.

Lemma ident_start_plain c :
  ident_start c = true ->
  Ascii.eqb c "$" = false /\ Ascii.eqb c "{" = false
  /\ char_in c special_chars = false /\ ident_char c = true
  /\ forall w, should_skip_variable (c :: w) = false.
Proof.
  intros H. each_char c; try discriminate H; repeat split; reflexivity.
Qed.

Lemma special_char_plain c :
  char_in c special_chars = true ->
  Ascii.eqb c "{" = false /\ ident_start c = false.
Proof.
  intros H. each_char c; try discriminate H; split; reflexivity.
Qed.

Lemma ident_char_plain c :
  ident_char c = true ->
  Ascii.eqb c "$" = false /\ Ascii.eqb c "{" = false /\ Ascii.eqb c "}" = false.
Proof.
  intros H. each_char c; try discriminate H; repeat split; reflexivity.
Qed.

Lemma scan_line_nil : scan_line [] = [].
Proof. reflexivity. Qed.

(** One round of the loop at a sigil that is not the last character. *)
Lemma scan_sigil_round fuel c1 tl1 :
  scan (S fuel) ("$" :: c1 :: tl1)
  = if Ascii.eqb c1 "{" then "$" :: c1 :: scan fuel tl1
    else if char_in c1 special_chars then "$" :: c1 :: scan fuel tl1
    else match match_identifier (c1 :: tl1) with
         | Some var_name =>
             if negb (should_skip_variable var_name) then
               str "${" ++ var_name ++ str "}"
                 ++ scan fuel (skipn (length var_name) (c1 :: tl1))
             else
               "$" :: var_name ++ scan fuel (skipn (length var_name) (c1 :: tl1))
         | None => "$" :: scan fuel (c1 :: tl1)
         end.
Proof. reflexivity. Qed.

Lemma scan_line_char c tl :
  Ascii.eqb c "$" = false -> scan_line (c :: tl) = c :: scan_line tl.
Proof.
  intros H. unfold scan_line. cbn [length scan]. rewrite H. reflexivity.
Qed.

Lemma scan_line_lone_sigil : scan_line ["$"] = ["$"].
Proof. reflexivity. Qed.

Lemma scan_line_braced tl :
  scan_line ("$" :: "{" :: tl) = "$" :: "{" :: scan_line tl.
Proof.
  unfold scan_line. cbn [length]. rewrite scan_sigil_round.
  change (Ascii.eqb "{" "{") with true. cbv iota.
  do 2 f_equal. apply scan_fuel_enough; lia.
Qed.

Lemma scan_line_special c tl :
  char_in c special_chars = true ->
  scan_line ("$" :: c :: tl) = "$" :: c :: scan_line tl.
Proof.
  intros H. unfold scan_line. cbn [length]. rewrite scan_sigil_round, H.
  destruct (Ascii.eqb c "{"); do 2 f_equal; apply scan_fuel_enough; lia.
Qed.

Lemma scan_line_ident c tl :
  ident_start c = true ->
  scan_line ("$" :: c :: tl)
  = "$" :: "{" :: c :: take_while ident_char tl
      ++ "}" :: scan_line (skipn (length (take_while ident_char tl)) tl).
Proof.
  intros H. destruct (ident_start_plain c H) as (_ & Hb & Hs & _ & Hskip).
  unfold scan_line. cbn [length]. rewrite scan_sigil_round, Hb, Hs.
  unfold match_identifier. rewrite H, Hskip.
  cbn [negb length skipn]. change (str "${") with ["$"; "{"].
  change (str "}") with ["}"]. cbn [app]. do 5 f_equal.
  apply scan_fuel_enough; rewrite length_skipn; lia.
Qed.

Lemma scan_line_sigil c tl :
  Ascii.eqb c "{" = false -> char_in c special_chars = false ->
  ident_start c = false ->
  scan_line ("$" :: c :: tl) = "$" :: scan_line (c :: tl).
Proof.
  intros Hb Hs Hi. unfold scan_line. cbn [length]. rewrite scan_sigil_round, Hb, Hs.
  unfold match_identifier. rewrite Hi. reflexivity.
Qed.

Lemma special_sigil : forall c,
  char_in c special_chars = false -> Ascii.eqb c "$" = false.
Proof. intros c H. each_char c; try discriminate H; reflexivity. Qed.

Lemma space_plain c :
  is_space c = true -> Ascii.eqb c "$" = false /\ Ascii.eqb "#" c = false.
Proof. intros H. each_char c; try discriminate H; split; reflexivity. Qed.

Lemma take_while_skipn f (s : text) :
  take_while f s ++ skipn (length (take_while f s)) s = s.
Proof.
  induction s as [|c tl IH]; [reflexivity|]. simpl.
  destruct (f c); simpl; [f_equal; exact IH | reflexivity].
Qed.

Lemma take_while_all f (s : text) : forallb f (take_while f s) = true.
Proof.
  induction s as [|c tl IH]; [reflexivity|]. simpl.
  destruct (f c) eqn:E; simpl; [rewrite E; exact IH | reflexivity].
Qed.

Lemma take_while_maximal (s : text) :
  ends_identifier (skipn (length (take_while ident_char s)) s) = true.
Proof.
  induction s as [|c tl IH]; [reflexivity|]. simpl.
  destruct (ident_char c) eqn:E; simpl; [exact IH | rewrite E; reflexivity].
Qed.

Lemma take_while_prefix f (w s : text) :
  forallb f w = true ->
  match s with c :: _ => f c = false | [] => True end ->
  take_while f (w ++ s) = w.
Proof.
  intros Hw Hs. induction w as [|c w IH]; simpl in *.
  - destruct s; simpl; [reflexivity|]. rewrite Hs. reflexivity.
  - apply andb_prop in Hw as [Hc Hw]. rewrite Hc, IH by assumption. reflexivity.
Qed.

(** Identifier characters are ordinary characters for the scanner. *)
Lemma scan_line_identifier_chars w s :
  forallb ident_char w = true -> scan_line (w ++ s) = w ++ scan_line s.
Proof.
  induction w as [|c w IH]; intros H; [reflexivity|].
  simpl in H. apply andb_prop in H as [Hc Hw]. simpl.
  rewrite scan_line_char by (apply ident_char_plain; exact Hc).
  rewrite IH by exact Hw. reflexivity.
Qed.

(** The first character of a line is the first character of its scan. *)
Lemma scan_line_head c tl : exists t, scan_line (c :: tl) = c :: t.
Proof.
  destruct (Ascii.eqb c "$") eqn:Ec.
  - apply Ascii.eqb_eq in Ec. subst c. destruct tl as [|c1 tl1].
    + exists []. reflexivity.
    + destruct (Ascii.eqb c1 "{") eqn:Eb.
      { apply Ascii.eqb_eq in Eb. subst c1. rewrite scan_line_braced. eauto. }
      destruct (char_in c1 special_chars) eqn:Es.
      { rewrite scan_line_special by exact Es. eauto. }
      destruct (ident_start c1) eqn:Ei.
      { rewrite scan_line_ident by exact Ei. eauto. }
      rewrite scan_line_sigil by assumption. eauto.
  - rewrite scan_line_char by exact Ec. eauto.
Qed.

Lemma scan_line_idempotent l : scan_line (scan_line l) = scan_line l.
Proof.
  remember (length l) as n eqn:Hn. assert (Hle : length l <= n) by lia.
  clear Hn. revert l Hle. induction n as [|n IH]; intros l Hle.
  { destruct l; [reflexivity | simpl in Hle; lia]. }
  destruct l as [|c tl]; [reflexivity|]. simpl in Hle.
  destruct (Ascii.eqb c "$") eqn:Ec.
  2:{ rewrite !scan_line_char by exact Ec. f_equal. apply IH. lia. }
  apply Ascii.eqb_eq in Ec. subst c. destruct tl as [|c1 tl1]; [reflexivity|].
  simpl in Hle.
  destruct (Ascii.eqb c1 "{") eqn:Eb.
  { apply Ascii.eqb_eq in Eb. subst c1. rewrite !scan_line_braced.
    do 2 f_equal. apply IH. lia. }
  destruct (char_in c1 special_chars) eqn:Es.
  { rewrite !scan_line_special by exact Es. do 2 f_equal. apply IH. lia. }
  destruct (ident_start c1) eqn:Ei.
  - rewrite scan_line_ident by exact Ei. rewrite scan_line_braced.
    do 2 f_equal.
    change (c1 :: take_while ident_char tl1 ++ ?x)
      with ((c1 :: take_while ident_char tl1) ++ x).
    rewrite scan_line_identifier_chars.
    2:{ simpl. rewrite take_while_all.
        destruct (ident_start_plain c1 Ei) as (_ & _ & _ & -> & _). reflexivity. }
    simpl. do 2 f_equal. rewrite scan_line_char by reflexivity.
    f_equal. apply IH. rewrite length_skipn. lia.
  - pose proof (special_sigil c1 Es) as Ec.
    rewrite scan_line_sigil, (scan_line_char c1) by assumption.
    rewrite scan_line_sigil, (scan_line_char c1) by assumption.
    do 2 f_equal. apply IH. lia.
Qed.

Lemma is_comment_line_scan l : is_comment_line (scan_line l) = is_comment_line l.
Proof.
  induction l as [|c tl IH]; [reflexivity|].
  destruct (is_space c) eqn:Esp.
  - rewrite scan_line_char by (apply space_plain; exact Esp).
    unfold is_comment_line in *. simpl. rewrite Esp. exact IH.
  - destruct (scan_line_head c tl) as [t ->].
    unfold is_comment_line. cbn [lstrip]. rewrite Esp.
    change (str "#") with ["#"]. cbn [startswith]. reflexivity.
Qed.

(** C2.  The reference scanner is idempotent: scanning the scan of a line
    gives the scan of the line, for every line. *)
Theorem add_braces_to_line_idempotent (line : text) :
  add_braces_to_line (add_braces_to_line line) = add_braces_to_line line.
Proof.
  unfold add_braces_to_line.
  destruct (is_comment_line line) eqn:E; [rewrite E; reflexivity|].
  fold (scan_line line). rewrite is_comment_line_scan, E.
  apply scan_line_idempotent.
Qed.

(** *** The scanner only inserts braces *)

Lemma brace_inserted_refl l : brace_inserted l l.
Proof. induction l; constructor; assumption. Qed.

Lemma brace_inserted_app a a' b b' :
  brace_inserted a a' -> brace_inserted b b' -> brace_inserted (a ++ b) (a' ++ b').
Proof.
  intros Ha Hb. induction Ha; simpl; try constructor; assumption.
Qed.

Lemma brace_inserted_scan l : brace_inserted l (scan_line l).
Proof.
  remember (length l) as n eqn:Hn. assert (Hle : length l <= n) by lia.
  clear Hn. revert l Hle. induction n as [|n IH]; intros l Hle.
  { destruct l; [constructor | simpl in Hle; lia]. }
  destruct l as [|c tl]; [constructor|]. simpl in Hle.
  destruct (Ascii.eqb c "$") eqn:Ec.
  2:{ rewrite scan_line_char by exact Ec. constructor. apply IH. lia. }
  apply Ascii.eqb_eq in Ec. subst c.
  destruct tl as [|c1 tl1]; [apply brace_inserted_refl|]. simpl in Hle.
  destruct (Ascii.eqb c1 "{") eqn:Eb.
  { apply Ascii.eqb_eq in Eb. subst c1. rewrite scan_line_braced.
    do 2 constructor. apply IH. lia. }
  destruct (char_in c1 special_chars) eqn:Es.
  { rewrite scan_line_special by exact Es. do 2 constructor. apply IH. lia. }
  destruct (ident_start c1) eqn:Ei.
  - rewrite scan_line_ident by exact Ei.
    rewrite <- (take_while_skipn ident_char tl1) at 1.
    do 3 constructor. apply brace_inserted_app; [apply brace_inserted_refl|].
    constructor. apply IH. rewrite length_skipn. lia.
  - rewrite scan_line_sigil by assumption. constructor. apply IH. simpl. lia.
Qed.

Lemma scan_line_tail c s :
  exists t, scan_line (c :: s) = c :: t /\ brace_inserted s t.
Proof.
  destruct (scan_line_head c s) as [t Ht]. exists t. split; [exact Ht|].
  pose proof (brace_inserted_scan (c :: s)) as H. rewrite Ht in H.
  inversion H; subst; try assumption.
  - (* the head would be an inserted opening brace *)
    destruct (Ascii.eqb_spec "{" "$"); [discriminate|].
    rewrite scan_line_char in Ht by reflexivity.
    injection Ht as <-. apply brace_inserted_scan.
  - rewrite scan_line_char in Ht by reflexivity.
    injection Ht as <-. apply brace_inserted_scan.
Qed.

Lemma take_while_stop f (a b : text) x :
  f x = false -> take_while f (a ++ x :: b) = take_while f a.
Proof.
  intros Hx. induction a as [|c a IH]; simpl; [rewrite Hx; reflexivity|].
  destruct (f c); [f_equal; exact IH | reflexivity].
Qed.

Lemma take_while_length f (s : text) : length (take_while f s) <= length s.
Proof.
  induction s as [|c tl IH]; simpl; [lia|]. destruct (f c); simpl; lia.
Qed.

(** The scan at an identifier reference that lies inside [pre]. *)
Lemma scan_line_ident_inside c pre s :
  ident_start c = true ->
  let w := take_while ident_char pre in
  scan_line ("$" :: c :: pre ++ "$" :: s)
  = "$" :: "{" :: c :: w
      ++ "}" :: scan_line (skipn (length w) pre ++ "$" :: s).
Proof.
  intros Hc w. rewrite scan_line_ident by exact Hc.
  rewrite take_while_stop by reflexivity. fold w.
  rewrite skipn_app.
  replace (length w - length pre) with 0 by (pose proof (take_while_length ident_char pre); subst w; lia).
  reflexivity.
Qed.

Lemma scan_line_special_kept n : forall pre c suf,
  length pre <= n ->
  char_in c special_chars = true ->
  exists o1 o2,
    scan_line (pre ++ "$" :: c :: suf) = o1 ++ "$" :: c :: o2
    /\ brace_inserted pre o1 /\ brace_inserted suf o2.
Proof.
  induction n as [n IH] using lt_wf_ind. intros pre c suf Hle Hc.
  destruct pre as [|x pre'].
  { exists [], (scan_line suf). simpl. rewrite scan_line_special by exact Hc.
    split; [reflexivity|]. split; [constructor | apply brace_inserted_scan]. }
  simpl in Hle. destruct n as [|n]; [lia|].
  assert (Hrec : forall p, length p <= length pre' ->
            exists o1 o2,
              scan_line (p ++ "$" :: c :: suf) = o1 ++ "$" :: c :: o2
              /\ brace_inserted p o1 /\ brace_inserted suf o2).
  { intros p Hp. apply (IH (length p)); [lia | lia | exact Hc]. }
  simpl. destruct (Ascii.eqb x "$") eqn:Ex.
  2:{ rewrite scan_line_char by exact Ex.
      destruct (Hrec pre') as (o1 & o2 & E & H1 & H2); [lia|].
      exists (x :: o1), o2. rewrite E. repeat split; try constructor; assumption. }
  apply Ascii.eqb_eq in Ex. subst x. destruct pre' as [|y pre''].
  { (* the sigil before the occurrence pairs with the occurrence's sigil *)
    simpl. rewrite scan_line_special by reflexivity.
    destruct (scan_line_tail c suf) as (t & -> & Ht).
    exists ["$"], t. repeat split; [apply brace_inserted_refl | exact Ht]. }
  simpl. simpl in Hrec.
  destruct (Ascii.eqb y "{") eqn:Eb.
  { apply Ascii.eqb_eq in Eb. subst y. rewrite scan_line_braced.
    destruct (Hrec pre'') as (o1 & o2 & E & H1 & H2); [lia|].
    exists ("$" :: "{" :: o1), o2. rewrite E.
    repeat split; try (do 2 constructor); assumption. }
  destruct (char_in y special_chars) eqn:Es.
  { rewrite scan_line_special by exact Es.
    destruct (Hrec pre'') as (o1 & o2 & E & H1 & H2); [lia|].
    exists ("$" :: y :: o1), o2. rewrite E.
    repeat split; try (do 2 constructor); assumption. }
  destruct (ident_start y) eqn:Ei.
  - rewrite scan_line_ident_inside by exact Ei.
    set (w := take_while ident_char pre'').
    destruct (Hrec (skipn (length w) pre'')) as (o1 & o2 & E & H1 & H2).
    { rewrite length_skipn. lia. }
    exists ("$" :: "{" :: y :: w ++ "}" :: o1), o2. rewrite E.
    split; [simpl; rewrite <- app_assoc; reflexivity|]. split; [|exact H2].
    rewrite <- (take_while_skipn ident_char pre'') at 1. fold w.
    do 3 constructor. apply brace_inserted_app; [apply brace_inserted_refl|].
    constructor. exact H1.
  - pose proof (special_sigil y Es) as Ey.
    rewrite scan_line_sigil by assumption.
    change (y :: pre'' ++ "$" :: c :: suf) with ((y :: pre'') ++ "$" :: c :: suf).
    destruct (Hrec (y :: pre'')) as (o1 & o2 & E & H1 & H2); [simpl; lia|].
    exists ("$" :: o1), o2. rewrite E.
    repeat split; try constructor; assumption.
Qed.

(** C8.  For every line and every special or positional character [c], an
    occurrence of the sigil directly followed by [c] is copied as it is:
    the output is the text before the occurrence and the text after it,
    each with braces inserted at most, around the unchanged pair; no
    brace comes between the sigil and [c]. *)
Theorem special_sigil_never_bracketed (pre suf : text) (c : ascii) :
  char_in c special_chars = true ->
  exists o1 o2,
    add_braces_to_line (pre ++ "$" :: c :: suf) = o1 ++ "$" :: c :: o2
    /\ brace_inserted pre o1 /\ brace_inserted suf o2.
Proof.
  intros Hc. unfold add_braces_to_line.
  destruct (is_comment_line (pre ++ "$" :: c :: suf)).
  - exists pre, suf. repeat split; apply brace_inserted_refl.
  - apply (scan_line_special_kept (length pre)); [lia | exact Hc].
Qed.

Lemma special_sigil_never_bracketed_witness :
  exists o1 o2,
    add_braces_to_line (str "echo $FOO and " ++ "$" :: "1" :: str " and ${BAR}")
    = o1 ++ "$" :: "1" :: o2
    /\ brace_inserted (str "echo $FOO and ") o1
    /\ brace_inserted (str " and ${BAR}") o2.
Proof.
  apply (special_sigil_never_bracketed (str "echo $FOO and ") (str " and ${BAR}") "1").
  reflexivity.
Defined.

(** *** Identifier references *)

Lemma no_trailing_sigil_suffix a b :
  no_trailing_sigil (a ++ b) = true -> no_trailing_sigil b = true.
Proof.
  unfold no_trailing_sigil. rewrite rev_app_distr.
  destruct (rev b); [reflexivity | exact (fun H => H)].
Qed.

(** The cursor reaches a sigil that no other sigil precedes directly, so
    the scan of the line is the scan of the two parts. *)
Lemma scan_line_split n : forall pre s,
  length pre <= n ->
  no_trailing_sigil pre = true ->
  scan_line (pre ++ "$" :: s) = scan_line pre ++ scan_line ("$" :: s).
Proof.
  induction n as [n IH] using lt_wf_ind. intros pre s Hle Hpre.
  destruct pre as [|x pre']; [reflexivity|].
  simpl in Hle. destruct n as [|n]; [lia|].
  assert (Hrec : forall p, length p <= length pre' ->
            no_trailing_sigil p = true ->
            scan_line (p ++ "$" :: s) = scan_line p ++ scan_line ("$" :: s)).
  { intros p Hp. apply (IH (length p)); lia. }
  simpl. destruct (Ascii.eqb x "$") eqn:Ex.
  2:{ rewrite !scan_line_char by exact Ex. simpl. f_equal.
      apply Hrec; [lia|]. exact (no_trailing_sigil_suffix [x] pre' Hpre). }
  apply Ascii.eqb_eq in Ex. subst x.
  destruct pre' as [|y pre'']; [discriminate Hpre|].
  simpl. simpl in Hrec.
  destruct (Ascii.eqb y "{") eqn:Eb.
  { apply Ascii.eqb_eq in Eb. subst y. rewrite !scan_line_braced. simpl.
    do 2 f_equal. apply Hrec; [lia|].
    exact (no_trailing_sigil_suffix ["$"; "{"] pre'' Hpre). }
  destruct (char_in y special_chars) eqn:Es.
  { rewrite !scan_line_special by exact Es. simpl. do 2 f_equal.
    apply Hrec; [lia|]. exact (no_trailing_sigil_suffix ["$"; y] pre'' Hpre). }
  destruct (ident_start y) eqn:Ei.
  - rewrite scan_line_ident_inside, scan_line_ident by exact Ei.
    set (w := take_while ident_char pre''). simpl.
    rewrite <- app_assoc. simpl. do 5 f_equal.
    apply Hrec; [rewrite length_skipn; lia|].
    apply (no_trailing_sigil_suffix ("$" :: y :: w)).
    simpl. subst w. rewrite take_while_skipn. exact Hpre.
  - pose proof (special_sigil y Es) as Ey.
    rewrite !scan_line_sigil by assumption. simpl. f_equal.
    change (y :: pre'' ++ "$" :: s) with ((y :: pre'') ++ "$" :: s).
    apply Hrec; [simpl; lia|]. exact (no_trailing_sigil_suffix ["$"] (y :: pre'') Hpre).
Qed.

Lemma scan_line_reference name suf :
  is_identifier name = true -> ends_identifier suf = true ->
  scan_line ("$" :: name ++ suf) = "$" :: "{" :: name ++ "}" :: scan_line suf.
Proof.
  intros Hname Hsuf. destruct name as [|c w]; [discriminate|].
  simpl in Hname. apply andb_prop in Hname as [Hc Hw].
  simpl. rewrite scan_line_ident by exact Hc.
  assert (Htw : take_while ident_char (w ++ suf) = w).
  { apply take_while_prefix; [exact Hw|].
    destruct suf as [|d suf']; [exact I|].
    simpl in Hsuf. destruct (ident_char d); [discriminate | reflexivity]. }
  rewrite Htw, skipn_app, skipn_all, Nat.sub_diag. reflexivity.
Qed.

(** * The contract of the scanner, over the classified occurrences *)

Lemma classified_occurrences line ts :
  classified line ts -> concat (map occurrence ts) = line.
Proof.
  induction 1 as [|l ts _ IH|c l ts _ _ IH|name l ts _ _ _ IH|c l ts _ _ IH];
    cbn [map concat occurrence str list_ascii_of_string app]; rewrite ?IH; reflexivity.
Qed.

Lemma classified_scan line ts :
  classified line ts -> scan_line line = concat (map bracketed_equivalent ts).
Proof.
  induction 1 as [|l ts _ IH|c l ts Hc _ IH|name l ts Hn Hl _ IH|c l ts Hc _ IH];
    cbn [map concat bracketed_equivalent occurrence].
  - reflexivity.
  - rewrite scan_line_braced, IH. reflexivity.
  - rewrite scan_line_special by exact Hc. rewrite IH. reflexivity.
  - rewrite scan_line_reference by assumption. rewrite IH.
    cbn [str list_ascii_of_string app]. rewrite <- app_assoc. reflexivity.
  - destruct (Ascii.eqb c "$") eqn:Ec.
    + apply Ascii.eqb_eq in Ec. subst c. cbn [andb] in Hc.
      destruct l as [|c1 l1].
      * rewrite <- IH. reflexivity.
      * cbn [starts_reference] in Hc.
        apply orb_false_elim in Hc as [Hc Hi]. apply orb_false_elim in Hc as [Hb Hs].
        rewrite scan_line_sigil by assumption. rewrite IH. reflexivity.
    + rewrite scan_line_char by exact Ec. rewrite IH. reflexivity.
Qed.

Lemma classified_total n : forall line, length line <= n -> exists ts, classified line ts.
Proof.
  induction n as [|n IH]; intros line Hlen.
  { destruct line; [exists []; constructor | simpl in Hlen; lia]. }
  destruct line as [|c l]; [exists []; constructor|]. simpl in Hlen.
  destruct (Ascii.eqb c "$" && starts_reference l) eqn:Er.
  2:{ destruct (IH l) as [ts Hts]; [lia|].
      exists (LiteralCharacter c :: ts). constructor; assumption. }
  apply andb_prop in Er as [Ec Hr]. apply Ascii.eqb_eq in Ec. subst c.
  destruct l as [|c1 l1]; [discriminate Hr|]. cbn [starts_reference] in Hr.
  simpl in Hlen.
  destruct (Ascii.eqb c1 "{") eqn:Eb.
  { apply Ascii.eqb_eq in Eb. subst c1. destruct (IH l1) as [ts Hts]; [lia|].
    exists (AlreadyBracketed :: ts). constructor. exact Hts. }
  destruct (char_in c1 special_chars) eqn:Es.
  { destruct (IH l1) as [ts Hts]; [lia|].
    exists (SpecialSigil c1 :: ts). constructor; assumption. }
  cbn [orb] in Hr.
  set (w := take_while ident_char l1).
  destruct (IH (skipn (length w) l1)) as [ts Hts].
  { rewrite length_skipn. lia. }
  exists (IdentifierReference (c1 :: w) :: ts).
  rewrite <- (take_while_skipn ident_char l1). fold w.
  change ("$" :: c1 :: w ++ skipn (length w) l1)
    with ("$" :: (c1 :: w) ++ skipn (length w) l1).
  constructor.
  - cbn [is_identifier]. rewrite Hr. apply take_while_all.
  - apply take_while_maximal.
  - exact Hts.
Qed.

(** A comment line: white space, then the comment marker. *)
Lemma lstrip_spaces blanks s :
  forallb is_space blanks = true -> lstrip (blanks ++ s) = lstrip s.
Proof.
  induction blanks as [|c blanks IH]; [reflexivity|]. cbn [forallb app lstrip].
  intros H. apply andb_prop in H as [Hc Hb]. rewrite Hc. apply IH. exact Hb.
Qed.

Lemma lstrip_split line :
  exists blanks, forallb is_space blanks = true /\ line = blanks ++ lstrip line.
Proof.
  induction line as [|c line (blanks & Hb & IH)]; [exists []; split; reflexivity|].
  cbn [lstrip]. destruct (is_space c) eqn:Ec.
  - exists (c :: blanks). cbn [forallb app]. rewrite Ec, Hb.
    split; [reflexivity | f_equal; exact IH].
  - exists []. split; reflexivity.
Qed.

Lemma is_comment_line_marker line :
  is_comment_line line = true
  <-> exists blanks rest,
        forallb is_space blanks = true /\ line = blanks ++ "#" :: rest.
Proof.
  unfold is_comment_line. split.
  - intros H. destruct (lstrip_split line) as (blanks & Hb & Hline).
    destruct (lstrip line) as [|c rest]; [discriminate H|].
    cbn [startswith str list_ascii_of_string] in H.
    rewrite andb_true_r in H. apply Ascii.eqb_eq in H. subst c.
    exists blanks, rest. split; assumption.
  - intros (blanks & rest & Hb & ->). rewrite lstrip_spaces by exact Hb.
    reflexivity.
Qed.

(** C9 (amended).  Scenario A holds.  A comment line, which is a line
    whose first character after white space is the comment marker, is
    returned as it is.  Every line has a classification of its
    occurrences, and on a line that is not a comment line the scanner
    gives, occurrence by occurrence, the bracketed form for every
    reference to an identifier and the occurrence itself for every other
    one.  So the scan only inserts braces, and a reference that follows
    text without a sigil at its end is bracketed between the scans of
    what precedes and what follows. *)
Theorem scanner_contract :
  add_braces_to_line (str "echo $FOO and $1 and ${BAR}")
    = str "echo ${FOO} and $1 and ${BAR}"
  /\ (forall line,
        is_comment_line line = true
        <-> exists blanks rest,
              forallb is_space blanks = true /\ line = blanks ++ "#" :: rest)
  /\ (forall line, is_comment_line line = true -> add_braces_to_line line = line)
  /\ (forall line, exists ts, classified line ts)
  /\ (forall line ts,
        is_comment_line line = false -> classified line ts ->
        concat (map occurrence ts) = line
        /\ add_braces_to_line line = concat (map bracketed_equivalent ts))
  /\ (forall line, brace_inserted line (add_braces_to_line line))
  /\ (forall pre name suf,
        is_comment_line (pre ++ "$" :: name ++ suf) = false ->
        no_trailing_sigil pre = true ->
        is_identifier name = true ->
        ends_identifier suf = true ->
        add_braces_to_line (pre ++ "$" :: name ++ suf)
        = scan_line pre ++ "$" :: "{" :: name ++ "}" :: scan_line suf).
Proof.
  split; [vm_compute; reflexivity|]. split; [exact is_comment_line_marker|].
  split; [|split; [|split; [|split]]].
  - intros line H. unfold add_braces_to_line. rewrite H. reflexivity.
  - intros line. apply (classified_total (length line)). lia.
  - intros line ts Hc Hts. split; [apply classified_occurrences; exact Hts|].
    unfold add_braces_to_line. rewrite Hc. apply classified_scan. exact Hts.
  - intros line. unfold add_braces_to_line.
    destruct (is_comment_line line);
      [apply brace_inserted_refl | apply brace_inserted_scan].
  - intros pre name suf Hc Hpre Hname Hsuf.
    unfold add_braces_to_line. rewrite Hc.
    fold (scan_line (pre ++ "$" :: name ++ suf)).
    rewrite (scan_line_split (length pre)) by (lia || exact Hpre).
    rewrite scan_line_reference by assumption. reflexivity.
Qed.

Lemma scanner_contract_witness :
  concat (map occurrence scenario_A_tokens) = str "echo $FOO and $1 and ${BAR}"
  /\ add_braces_to_line (str "echo $FOO and $1 and ${BAR}")
     = concat (map bracketed_equivalent scenario_A_tokens).
Proof.
  apply (proj1 (proj2 (proj2 (proj2 (proj2 scanner_contract))))
           (str "echo $FOO and $1 and ${BAR}") scenario_A_tokens).
  - reflexivity.
  - unfold scenario_A_tokens. cbn [str list_ascii_of_string map app].
    repeat first [ apply cl_end
                 | apply cl_bracketed
                 | apply cl_special; [reflexivity|]
                 | apply (cl_identifier (str "FOO")); [reflexivity | reflexivity |]
                 | apply cl_literal; [reflexivity|] ].
Defined.

(** C9, as stated, fails on a comment line: the reference in it is an
    unbracketed reference to an ordinary variable, and the scanner leaves
    it unbracketed. *)
Lemma comment_line_reference_kept :
  add_braces_to_line (str "# echo $FOO") = str "# echo $FOO"
  /\ has_unbracketed_reference (add_braces_to_line (str "# echo $FOO")) = true.
Proof. split; vm_compute; reflexivity. Qed.

(** * Properties of the env-injection rewrite *)

(** Scenario C: the idiom with the export lines [export A=1] and
    [export B="${OPENROUTER_API_KEY}"] for the destination [HOST_IP] is
    rewritten to the log line and one call with the two quoted arguments
    [A=1] and [B=$OPENROUTER_API_KEY], in that order. *)
Example scenario_C :
  RefactorEnv.refactor_ssh_cloud_script {[ "do/a.sh"%string := sample_script ]}
    "do/a.sh" (str "HOST_IP")
  = (Ret true, <[ "do/a.sh"%string := sample_rewritten ]>
                 {[ "do/a.sh"%string := sample_script ]}).
Proof. vm_compute. reflexivity. Qed.

(** C4, at an input with two occurrences of the idiom: both regions are
    replaced, the second one by the replacement that was rendered from
    the body of the first, and its own export line is lost. *)
Lemma every_occurrence_replaced_by_first :
  RefactorEnv.refactor_ssh_cloud_script {[ "do/a.sh"%string := sample_two_blocks ]}
    "do/a.sh" (str "HOST_IP")
  = (Ret true, <[ "do/a.sh"%string := sample_two_blocks_rewritten ]>
                 {[ "do/a.sh"%string := sample_two_blocks ]}).
Proof. vm_compute. reflexivity. Qed.

Example no_exports_eval :
  RefactorEnv.refactor_ssh_cloud_script {[ "do/a.sh"%string := sample_no_exports ]}
    "do/a.sh" (str "HOST_IP")
  = (Ret false, {[ "do/a.sh"%string := sample_no_exports ]}).
Proof. vm_compute. reflexivity. Qed.

Lemma text_eqb_eq a b : text_eqb a b = true <-> a = b.
Proof.
  revert b. induction a as [|x a IH]; intros [|y b]; simpl; split;
    try reflexivity; try discriminate.
  - intros H. apply andb_prop in H as [Hx Hab].
    apply Ascii.eqb_eq in Hx. apply IH in Hab. congruence.
  - intros [= -> ->]. rewrite Ascii.eqb_refl. apply IH. reflexivity.
Qed.

(** C3.  For a server variable named in letters, digits and underscores:
    when neither pattern matches the file, or the match has no export
    line in its heredoc body, or the substitution gives back the text
    that was read, [refactor_ssh_cloud_script] returns [False] and the
    store is the one it started from. *)
Theorem refactor_without_change_leaves_store
    (fs : gmap string text) (filepath : string) (server_ip_var on_disk : text) :
  word_name server_ip_var = true ->
  fs !! filepath = Some on_disk ->
  let content := universal_newlines on_disk in
  idiom_match server_ip_var content = None
  \/ (exists p m h,
        idiom_match server_ip_var content = Some (p, m)
        /\ m_group1 m = Some h /\ heredoc_env_vars h = [])
  \/ (exists p m h,
        idiom_match server_ip_var content = Some (p, m)
        /\ m_group1 m = Some h
        /\ sub p (RefactorEnv.replacement server_ip_var (heredoc_env_vars h)) content
           = Ret content) ->
  RefactorEnv.refactor_ssh_cloud_script fs filepath server_ip_var = (Ret false, fs).
Proof.
  intros _ Hfs content H. unfold RefactorEnv.refactor_ssh_cloud_script.
  rewrite Hfs. fold content. unfold idiom_match in H.
  destruct (search (RefactorEnv.pattern1 server_ip_var) content) as [m1|] eqn:E1.
  - rewrite E1. destruct H as [H | [(p & m & h & H & Hg & Hv) | (p & m & h & H & Hg & Hs)]].
    + discriminate H.
    + injection H as <- <-. rewrite Hg, Hv. reflexivity.
    + injection H as <- <-. rewrite Hg.
      destruct (heredoc_env_vars h); [reflexivity|]. rewrite Hs.
      rewrite (proj2 (text_eqb_eq content content) eq_refl). reflexivity.
  - destruct (search (RefactorEnv.pattern2 server_ip_var) content) as [m2|] eqn:E2.
    + destruct H as [H | [(p & m & h & H & Hg & Hv) | (p & m & h & H & Hg & Hs)]].
      * discriminate H.
      * injection H as <- <-. rewrite Hg, Hv. reflexivity.
      * injection H as <- <-. rewrite Hg.
        destruct (heredoc_env_vars h); [reflexivity|]. rewrite Hs.
        rewrite (proj2 (text_eqb_eq content content) eq_refl). reflexivity.
    + reflexivity.
Qed.

Lemma refactor_without_change_leaves_store_witness :
  RefactorEnv.refactor_ssh_cloud_script {[ "do/a.sh"%string := sample_no_exports ]}
    "do/a.sh" (str "HOST_IP")
  = (Ret false, {[ "do/a.sh"%string := sample_no_exports ]}).
Proof.
  apply (refactor_without_change_leaves_store _ _ _ sample_no_exports).
  - reflexivity.
  - vm_compute. reflexivity.
  - right. left. eexists _, _, _. vm_compute. repeat split.
Defined.

(** *** The extraction loop keeps the export lines in order *)

Lemma extraction_loop_appends (q : text -> bool) (g : text -> text)
    (lines : list text) (env_vars : list text) :
  fold_left
    (fun env_vars line =>
       let line := strip line in
       if q line then env_vars ++ [g line] else env_vars)
    lines env_vars
  = env_vars ++ map g (List.filter q (map strip lines)).
Proof.
  revert env_vars. induction lines as [|line more IH]; intros env_vars; simpl.
  - rewrite app_nil_r. reflexivity.
  - rewrite IH. destruct (q (strip line)); simpl.
    + rewrite <- app_assoc. reflexivity.
    + reflexivity.
Qed.

Lemma heredoc_env_vars_map h :
  heredoc_env_vars h = map export_argument (export_lines h).
Proof.
  unfold heredoc_env_vars, export_lines.
  rewrite (extraction_loop_appends (fun line => startswith line (str "export "))).
  reflexivity.
Qed.

(** C7, at a value that holds a backslash escape: the rewrite succeeds,
    and the argument in the call that it writes is not the export line of
    the heredoc body.  The rendered replacement goes through the template
    expansion of [pattern.sub], which turns the backslash and the letter
    of the value into one tabulator. *)
Lemma escape_in_value_changes_argument :
  exists m h,
    idiom_match (str "HOST_IP") (universal_newlines sample_tab_escape)
    = Some (RefactorEnv.pattern2 (str "HOST_IP"), m)
    /\ m_group1 m = Some h
    /\ export_lines h = [ str "export A=a" ++ [backslash] ++ str "tb" ]
    /\ map export_argument (export_lines h)
       = [ dq (str "A=a" ++ [backslash] ++ str "tb") ]
    /\ RefactorEnv.refactor_ssh_cloud_script
         {[ "do/a.sh"%string := sample_tab_escape ]} "do/a.sh" (str "HOST_IP")
       = (Ret true, <[ "do/a.sh"%string := sample_tab_escape_rewritten ]>
                      {[ "do/a.sh"%string := sample_tab_escape ]})
    /\ sample_tab_escape_rewritten
       <> ln (str "#!/bin/bash")
          ++ RefactorEnv.replacement (str "HOST_IP")
               (map export_argument (export_lines h))
          ++ ln (str "echo done").
Proof.
  eexists _, _. split; [vm_compute; reflexivity|]. split; [vm_compute; reflexivity|].
  repeat split; vm_compute; (reflexivity || discriminate).
Qed.

(** * Properties of the per-file driver of the scanner *)

Lemma readlines_writelines (s : text) : writelines (readlines s) = s.
Proof.
  unfold writelines. induction s as [|c tl IH]; [reflexivity|]. simpl.
  destruct (Ascii.eqb c newline).
  - simpl. f_equal. exact IH.
  - destruct (readlines tl) as [|l more]; simpl in *.
    + rewrite <- IH. reflexivity.
    + rewrite <- IH. reflexivity.
Qed.

Lemma universal_newlines_id (s : text) :
  no_carriage_return s = true -> universal_newlines s = s.
Proof.
  induction s as [|c tl IH]; [reflexivity|]. simpl. intros H.
  apply andb_prop in H as [Hc Htl].
  destruct (Ascii.eqb c carriage_return); [discriminate Hc|].
  f_equal. apply IH. exact Htl.
Qed.

(** C1 (amended).  [fix_file] returns [True] only when the oracle
    accepted the rewritten file, which is then the file on disk.  For a
    file without a carriage return, when the oracle gives its verdict on
    the rewritten file: the store differs from the one before the run
    only if the verdict is acceptance, and on rejection [fix_file]
    returns [False] and the store is the one before the run. *)
Theorem fix_file_commit_or_rollback
    (bash_n : text -> result bool) (fs : gmap string text)
    (file_path : string) (on_disk : text) :
  fs !! file_path = Some on_disk ->
  let rewritten :=
    writelines (map add_braces_to_line (readlines (universal_newlines on_disk))) in
  let fixed := fst (fix_file bash_n fs file_path) in
  let fs' := snd (fix_file bash_n fs file_path) in
  (fixed = true ->
     bash_n rewritten = Ret true /\ fs' = <[file_path := rewritten]> fs)
  /\ (no_carriage_return on_disk = true ->
      forall accepted, bash_n rewritten = Ret accepted ->
        (fs' <> fs ->
           accepted = true /\ fixed = true /\ fs' = <[file_path := rewritten]> fs)
        /\ (accepted = false -> fixed = false /\ fs' = fs)).
Proof.
  intros Hfs rewritten fixed fs'. subst fixed fs'.
  unfold fix_file. rewrite Hfs. cbv zeta. fold rewritten.
  set (snapshot := universal_newlines on_disk).
  destruct (lines_eqb (readlines snapshot) (map add_braces_to_line (readlines snapshot))).
  { cbn [fst snd]. split; [discriminate|]. intros _ accepted _.
    split; [congruence | intros _; split; reflexivity]. }
  destruct (bash_n rewritten) as [[|]|] eqn:Eo; cbn [negb fst snd].
  - split; [intros _; split; reflexivity|]. intros _ accepted [= <-].
    split; [intros _; repeat split; reflexivity | discriminate].
  - split; [discriminate|]. intros Hcr accepted [= <-].
    assert (Hback : <[file_path := writelines (readlines snapshot)]>
                      (<[file_path := rewritten]> fs) = fs).
    { rewrite insert_insert_eq, readlines_writelines. subst snapshot.
      rewrite universal_newlines_id by exact Hcr. apply insert_id. exact Hfs. }
    rewrite Hback. split; [congruence | intros _; split; reflexivity].
  - split; [discriminate|]. intros _ accepted H. discriminate H.
Qed.

Lemma fix_file_commit_or_rollback_witness :
  fst (fix_file reject_all {[ "x.sh"%string := ln (str "echo $FOO") ]} "x.sh") = false
  /\ snd (fix_file reject_all {[ "x.sh"%string := ln (str "echo $FOO") ]} "x.sh")
     = {[ "x.sh"%string := ln (str "echo $FOO") ]}.
Proof.
  assert (Hfile : ({[ "x.sh"%string := ln (str "echo $FOO") ]} : gmap string text)
                    !! "x.sh"%string = Some (ln (str "echo $FOO")))
    by (vm_compute; reflexivity).
  destruct (fix_file_commit_or_rollback reject_all _ _ _ Hfile) as [_ H].
  destruct (H eq_refl false eq_refl) as [_ Hrejected].
  exact (Hrejected eq_refl).
Defined.

(** Two paths outside that statement.  When the call of the oracle
    raises, the handler returns [False] and the rewritten text stays on
    disk; and what is written back on rejection is the text as it was
    read, in which every carriage return has become a newline. *)
Lemma fix_file_handler_keeps_rewrite :
  fix_file no_oracle {[ "x.sh"%string := ln (str "echo $FOO") ]} "x.sh"
  = (false, {[ "x.sh"%string := ln (str "echo ${FOO}") ]}).
Proof. vm_compute. reflexivity. Qed.

Lemma fix_file_restores_text_as_read :
  fix_file reject_all
    {[ "x.sh"%string := str "echo $FOO" ++ [carriage_return; newline] ]} "x.sh"
  = (false, {[ "x.sh"%string := ln (str "echo $FOO") ]}).
Proof. vm_compute. reflexivity. Qed.

(** C1, as stated, fails for the env-injection pipeline: it consults no
    oracle, so the rewritten text is on disk whatever an oracle would
    say.  Here the oracle rejects every file. *)
Lemma refactor_commits_without_oracle :
  ~ (forall (bash_n : text -> result bool) (fs : gmap string text)
            (filepath : string) (server_ip_var new_content : text),
       snd (RefactorEnv.refactor_ssh_cloud_script fs filepath server_ip_var)
         !! filepath = Some new_content ->
       fs !! filepath <> Some new_content ->
       bash_n new_content = Ret true).
Proof.
  intros H.
  specialize (H reject_all {[ "do/a.sh"%string := sample_script ]}
                "do/a.sh"%string (str "HOST_IP") sample_rewritten).
  discriminate H.
  - vm_compute. reflexivity.
  - vm_compute. discriminate.
Qed.

(** * Properties of the extractor *)

(** C5, at a value that contains the keyword: every occurrence of the
    keyword and its space is removed, not the leading one only. *)
Lemma keyword_removed_inside_value :
  heredoc_env_vars (ln (export_line (str "MOTD") (dq (str "run export FOO=1 first"))))
  = [ dq (str "MOTD=" ++ dq (str "run FOO=1 first")) ]
  /\ heredoc_env_vars (ln (export_line (str "MOTD") (dq (str "run export FOO=1 first"))))
     <> [ dq (str "MOTD=" ++ dq (str "run export FOO=1 first")) ].
Proof. split; [vm_compute; reflexivity | vm_compute; discriminate]. Qed.

Lemma startswith_app (p s : text) : startswith (p ++ s) p = true.
Proof.
  induction p as [|x p IH]; [reflexivity|]. simpl.
  rewrite Ascii.eqb_refl. exact IH.
Qed.

Lemma replace_from_skip old new (w s : text) :
  replace_from old new (length w) (w ++ s) = replace_from old new 0 s.
Proof.
  induction w as [|c w IH]; simpl; [|exact IH].
  destruct s; reflexivity.
Qed.

(** An occurrence at the start of the text is replaced. *)
Lemma replace_at_start o old new s :
  replace ((o :: old) ++ s) (o :: old) new = new ++ replace s (o :: old) new.
Proof.
  unfold replace. cbn [app replace_from].
  change (o :: old ++ s) with ((o :: old) ++ s).
  rewrite startswith_app.
  replace (length (o :: old) - 1) with (length old) by (simpl; lia).
  rewrite replace_from_skip. reflexivity.
Qed.

Lemma startswith_length s : forall p, startswith s p = true -> length p <= length s.
Proof.
  induction s as [|y s IH]; intros [|x p] H; simpl in *; try lia; try discriminate.
  apply andb_prop in H as [_ H]. apply IH in H. lia.
Qed.

Lemma startswith_app_l s t : forall p,
  startswith s p = true -> startswith (s ++ t) p = true.
Proof.
  induction s as [|y s IH]; intros [|x p] H; simpl in *; try reflexivity;
    try discriminate.
  apply andb_prop in H as [Hx H]. rewrite Hx. apply IH. exact H.
Qed.

(** [replace] goes through a concatenation when no occurrence of [old]
    starts in the first part and ends in the second. *)
Lemma replace_from_app old new b : forall a skip,
  (forall a1 a2, a = a1 ++ a2 -> a2 <> [] ->
     startswith (a2 ++ b) old = true -> startswith a2 old = true) ->
  skip <= length a ->
  replace_from old new skip (a ++ b)
  = replace_from old new skip a ++ replace_from old new 0 b.
Proof.
  induction a as [|c a IH]; intros skip H Hskip.
  { simpl in Hskip. replace skip with 0 by lia. reflexivity. }
  assert (H' : forall a1 a2, a = a1 ++ a2 -> a2 <> [] ->
                 startswith (a2 ++ b) old = true -> startswith a2 old = true).
  { intros a1 a2 -> Hne. apply (H (c :: a1) a2); [reflexivity | exact Hne]. }
  simpl in Hskip. destruct skip as [|k]; cbn [app replace_from].
  - destruct (startswith (c :: a ++ b) old) eqn:Es.
    + rewrite (H [] (c :: a) eq_refl) by (discriminate || exact Es).
      pose proof (startswith_length _ _ (H [] (c :: a) eq_refl ltac:(discriminate) Es)) as Hl.
      simpl in Hl. rewrite (IH _ H') by lia. rewrite app_assoc. reflexivity.
    + destruct (startswith (c :: a) old) eqn:Ea.
      * apply (startswith_app_l _ b) in Ea. cbn [app] in Ea. congruence.
      * rewrite (IH _ H') by lia. reflexivity.
  - apply (IH _ H'). lia.
Qed.

Lemma replace_app old new a b :
  (forall a1 a2, a = a1 ++ a2 -> a2 <> [] ->
     startswith (a2 ++ b) old = true -> startswith a2 old = true) ->
  replace (a ++ b) old new = replace a old new ++ replace b old new.
Proof. intros H. apply replace_from_app; [exact H | lia]. Qed.

(** An occurrence that starts in [a2] and goes on into [b] splits [old]. *)
Lemma straddle_split b : forall a2 old,
  a2 <> [] -> startswith (a2 ++ b) old = true ->
  startswith a2 old = true
  \/ exists k, 0 < k < length old /\ a2 = firstn k old
               /\ startswith b (skipn k old) = true.
Proof.
  induction a2 as [|x a2 IH]; intros old Hne H; [congruence|].
  destruct old as [|o old]; [left; reflexivity|].
  cbn [app startswith] in H. apply andb_prop in H as [Hx H].
  apply Ascii.eqb_eq in Hx. subst x.
  destruct a2 as [|x2 a2].
  - destruct old as [|o2 old]; [left; simpl; rewrite Ascii.eqb_refl; reflexivity|].
    right. exists 1. repeat split; simpl; try lia. exact H.
  - destruct (IH old ltac:(discriminate) H) as [Hs | (k & Hk & Ha & Hb)].
    + left. cbn [startswith]. rewrite Ascii.eqb_refl. exact Hs.
    + right. exists (S k). repeat split; simpl; try lia.
      * f_equal. exact Ha.
      * exact Hb.
Qed.

Lemma char_in_tail y (s : text) : char_in y s = false -> char_in y (tl s) = false.
Proof.
  destruct s as [|z s]; [reflexivity|]. unfold char_in. simpl.
  intros H. apply orb_false_elim in H as [_ H]. exact H.
Qed.

Lemma startswith_first_in b : forall old,
  old <> [] -> startswith b old = true -> first_not_in b old = false.
Proof.
  intros [|o old] Hne H; [congruence|]. destruct b as [|y b]; [discriminate H|].
  simpl in H. apply andb_prop in H as [Hy _]. apply Ascii.eqb_eq in Hy. subst y.
  unfold first_not_in, char_in. simpl. rewrite Ascii.eqb_refl. reflexivity.
Qed.

Lemma skipn_in_tail (old : text) k y :
  0 < k -> char_in y (skipn k old) = true -> char_in y (tl old) = true.
Proof.
  revert k. induction old as [|o old IH]; intros k Hk H.
  { rewrite skipn_nil in H. discriminate H. }
  destruct k as [|k]; [lia|]. cbn [skipn tl] in *.
  destruct k as [|k]; [exact H|].
  destruct old as [|o2 old]; [rewrite skipn_nil in H; discriminate H|].
  specialize (IH (S k) ltac:(lia) H). cbn [tl] in IH.
  unfold char_in in *. simpl. rewrite IH. apply orb_true_r.
Qed.

(** When the first character of [b] is not in the tail of [old], no
    occurrence goes on into [b]. *)
Lemma replace_app_char old new a b :
  first_not_in b (tl old) = true ->
  replace (a ++ b) old new = replace a old new ++ replace b old new.
Proof.
  intros Hb. apply replace_app. intros a1 a2 _ Hne Hs.
  destruct (straddle_split b a2 old Hne Hs) as [H | (k & Hk & _ & Hk2)]; [exact H|].
  exfalso.
  assert (Hlen : skipn k old <> []).
  { intros E. apply (f_equal (@length ascii)) in E. rewrite length_skipn in E.
    simpl in E. lia. }
  pose proof (startswith_first_in _ _ Hlen Hk2) as Hin.
  destruct b as [|y b]; [discriminate Hin|]. cbn [first_not_in] in *.
  apply negb_false_iff in Hin. apply (skipn_in_tail _ _ _ (proj1 Hk)) in Hin.
  rewrite Hin in Hb. discriminate Hb.
Qed.

Lemma clash_startswith w : forall old s,
  clash w old = true -> startswith (w ++ s) old = false.
Proof.
  induction w as [|c w IH]; intros [|o old] s H; simpl in *; try discriminate.
  destruct (Ascii.eqb o c); [|reflexivity]. apply IH. exact H.
Qed.

Lemma replace_no_occurrence old new w s :
  no_occurrence_starts old w = true ->
  replace (w ++ s) old new = w ++ replace s old new.
Proof.
  unfold replace. induction w as [|c w IH]; intros H; [reflexivity|].
  cbn [no_occurrence_starts] in H. apply andb_prop in H as [Hc Hw].
  cbn [app replace_from].
  change (c :: w ++ s) with ((c :: w) ++ s).
  rewrite (clash_startswith _ _ s Hc). rewrite IH by exact Hw. reflexivity.
Qed.

Lemma replace_prefix old new s :
  old <> [] -> replace (old ++ s) old new = new ++ replace s old new.
Proof. destruct old as [|o old]; [congruence|]. intros _. apply replace_at_start. Qed.

Lemma endswith_app a p : endswith (a ++ p) p = true.
Proof. unfold endswith. rewrite rev_app_distr. apply startswith_app. Qed.

(** The first replacement, of the double-quoted bracketed form: it goes
    through a concatenation unless an occurrence is made of the end of
    the first part and the start of the second. *)
Lemma quoted_form_app a b :
  (endswith a Q && startswith b (str "${OPENROUTER_API_KEY}" ++ Q)) = false ->
  (endswith a (Q ++ str "${OPENROUTER_API_KEY}") && startswith b Q) = false ->
  (startswith b (str "$") || startswith b Q) = true ->
  replace (a ++ b) (dq (str "${OPENROUTER_API_KEY}")) (str "$OPENROUTER_API_KEY")
  = replace a (dq (str "${OPENROUTER_API_KEY}")) (str "$OPENROUTER_API_KEY")
    ++ replace b (dq (str "${OPENROUTER_API_KEY}")) (str "$OPENROUTER_API_KEY").
Proof.
  intros H1 H2 Hb. apply replace_app. intros a1 a2 -> Hne Hs.
  destruct (straddle_split b a2 _ Hne Hs) as [H | (k & Hk & Ha & Hk2)]; [exact H|].
  exfalso. subst a2.
  destruct b as [|y b]; [discriminate Hb|].
  assert (Hy : y = "$" \/ y = ascii_of_nat 34).
  { cbn [startswith str list_ascii_of_string Q] in Hb. rewrite !andb_true_r in Hb.
    apply orb_prop in Hb as [Hb | Hb]; apply Ascii.eqb_eq in Hb; auto. }
  cbn [length dq Q str list_ascii_of_string app] in Hk.
  cbn [firstn skipn dq Q str list_ascii_of_string app] in H1, H2, Hk2.
  do 23 (destruct k as [|k];
         [ try lia;
           cbn [firstn skipn] in H1, H2, Hk2;
           destruct Hy as [-> | ->]; cbn in Hk2; try discriminate Hk2;
           first [ rewrite endswith_app in H2; cbn in H2; discriminate H2
                 | rewrite endswith_app in H1; cbn in H1;
                   rewrite Hk2 in H1; discriminate H1 ] |]).
  lia.
Qed.

(** A reference that [canonicalized] accepts becomes the bare reference,
    between what the four replacements make of the text before it and of
    the text after it. *)
Lemma var_line_reference v f pre suf :
  canonicalized v f (keyword_removed pre) (keyword_removed suf) = true ->
  var_line (export_with pre v f suf)
  = var_line pre ++ "$" :: upstream_name v ++ var_line suf.
Proof.
  intros Hc. unfold var_line, export_with.
  rewrite (replace_prefix (str "export ")) by discriminate. cbn [app].
  fold (keyword_removed pre). fold (keyword_removed suf).
  unfold keyword_removed at 1.
  rewrite (replace_app_char (str "export ") [] pre)
    by (destruct v, f; reflexivity).
  fold (keyword_removed pre).
  rewrite (replace_no_occurrence (str "export ") [] (reference f (upstream_name v)))
    by (destruct v, f; reflexivity).
  fold (keyword_removed suf).
  set (before := keyword_removed pre) in *.
  set (after := keyword_removed suf) in *.
  destruct v, f; try discriminate Hc; cbn [canonicalized] in Hc;
    cbn [reference upstream_name];
    try apply negb_true_iff in Hc.
  - (* OPENROUTER_API_KEY, double-quoted bracketed *)
    rewrite quoted_form_app;
      [| destruct (endswith before Q); reflexivity | rewrite Hc; reflexivity
       | reflexivity].
    rewrite (replace_prefix (dq (str "${OPENROUTER_API_KEY}"))) by discriminate.
    rewrite (replace_app_char (str "${OPENROUTER_API_KEY}")) by reflexivity.
    rewrite (replace_no_occurrence _ _ (str "$OPENROUTER_API_KEY")) by reflexivity.
    rewrite (replace_app_char (str "${MODEL_ID}")) by reflexivity.
    rewrite (replace_no_occurrence _ _ (str "$OPENROUTER_API_KEY")) by reflexivity.
    reflexivity.
  - (* OPENROUTER_API_KEY, bracketed *)
    rewrite quoted_form_app;
      [| | destruct (endswith before (Q ++ str "${OPENROUTER_API_KEY}")); reflexivity
       | reflexivity].
    2:{ destruct (endswith before Q); [|reflexivity]. cbn [andb] in *.
        destruct after as [|y s]; [reflexivity|]. cbn in Hc |- *.
        rewrite andb_true_r in *. exact Hc. }
    rewrite (replace_no_occurrence _ _ (str "${OPENROUTER_API_KEY}")) by reflexivity.
    rewrite (replace_app_char (str "${OPENROUTER_API_KEY}")) by reflexivity.
    rewrite (replace_prefix (str "${OPENROUTER_API_KEY}")) by discriminate.
    rewrite (replace_app_char (str "${MODEL_ID}")) by reflexivity.
    rewrite (replace_no_occurrence _ _ (str "$OPENROUTER_API_KEY")) by reflexivity.
    reflexivity.
  - (* OPENROUTER_API_KEY, bare *)
    rewrite quoted_form_app;
      [| destruct (endswith before Q); reflexivity
       | destruct (endswith before (Q ++ str "${OPENROUTER_API_KEY}")); reflexivity
       | reflexivity].
    change ("$" :: str "OPENROUTER_API_KEY" ++ after)
      with (str "$OPENROUTER_API_KEY" ++ after).
    rewrite (replace_no_occurrence _ _ (str "$OPENROUTER_API_KEY")) by reflexivity.
    rewrite (replace_app_char (str "${OPENROUTER_API_KEY}")) by reflexivity.
    rewrite (replace_no_occurrence _ _ (str "$OPENROUTER_API_KEY")) by reflexivity.
    rewrite (replace_app_char (str "${MODEL_ID}")) by reflexivity.
    rewrite (replace_no_occurrence _ _ (str "$OPENROUTER_API_KEY")) by reflexivity.
    reflexivity.
  - (* MODEL_ID, bracketed *)
    rewrite quoted_form_app;
      [| destruct (endswith before Q); reflexivity
       | destruct (endswith before (Q ++ str "${OPENROUTER_API_KEY}")); reflexivity
       | reflexivity].
    rewrite (replace_no_occurrence _ _ (str "${MODEL_ID}")) by reflexivity.
    rewrite (replace_app_char (str "${OPENROUTER_API_KEY}")) by reflexivity.
    rewrite (replace_no_occurrence _ _ (str "${MODEL_ID}")) by reflexivity.
    rewrite (replace_app_char (str "${MODEL_ID}")) by reflexivity.
    rewrite (replace_prefix (str "${MODEL_ID}")) by discriminate.
    reflexivity.
  - (* MODEL_ID, bare *)
    rewrite quoted_form_app;
      [| destruct (endswith before Q); reflexivity
       | destruct (endswith before (Q ++ str "${OPENROUTER_API_KEY}")); reflexivity
       | reflexivity].
    change ("$" :: str "MODEL_ID" ++ after) with (str "$MODEL_ID" ++ after).
    rewrite (replace_no_occurrence _ _ (str "$MODEL_ID")) by reflexivity.
    rewrite (replace_app_char (str "${OPENROUTER_API_KEY}")) by reflexivity.
    rewrite (replace_no_occurrence _ _ (str "$MODEL_ID")) by reflexivity.
    rewrite (replace_app_char (str "${MODEL_ID}")) by reflexivity.
    rewrite (replace_no_occurrence _ _ (str "$MODEL_ID")) by reflexivity.
    reflexivity.
Qed.

Lemma split_lines_one_line (s : text) :
  forallb (fun c => negb (Ascii.eqb c newline)) s = true -> split_lines s = [s].
Proof.
  induction s as [|c tl IH]; [reflexivity|]. simpl. intros H.
  apply andb_prop in H as [Hc Htl].
  destruct (Ascii.eqb c newline); [discriminate Hc|]. rewrite IH by exact Htl.
  reflexivity.
Qed.

(** C6 (amended).  A reference to one of the two upstream variables, in a
    form that the three literal replacements reach ([canonicalized]),
    becomes the bare reference wherever it stands on a trimmed export
    line, and the text around it is treated as it would be on its own;
    so two heredoc bodies whose export lines differ only in which of
    these forms one reference uses give the same arguments. *)
Theorem nested_reference_forms :
  (forall v f pre suf,
     canonicalized v f (keyword_removed pre) (keyword_removed suf) = true ->
     var_line (export_with pre v f suf)
     = var_line pre ++ "$" :: upstream_name v ++ var_line suf)
  /\ (forall v f1 f2 pre suf h1 h2 before after,
        canonicalized v f1 (keyword_removed pre) (keyword_removed suf) = true ->
        canonicalized v f2 (keyword_removed pre) (keyword_removed suf) = true ->
        export_lines h1 = before ++ export_with pre v f1 suf :: after ->
        export_lines h2 = before ++ export_with pre v f2 suf :: after ->
        heredoc_env_vars h1 = heredoc_env_vars h2).
Proof.
  split; [exact var_line_reference|].
  intros v f1 f2 pre suf h1 h2 before after H1 H2 E1 E2.
  rewrite !heredoc_env_vars_map, E1, E2, !map_app. cbn [map].
  unfold export_argument. rewrite !var_line_reference by assumption. reflexivity.
Qed.

Lemma nested_reference_forms_witness :
  heredoc_env_vars
    (ln (str "export A=1") ++ str "export url=https://host/${MODEL_ID}/v1")
  = heredoc_env_vars
      (ln (str "export A=1") ++ str "export url=https://host/$MODEL_ID/v1").
Proof.
  apply (proj2 nested_reference_forms MODEL_ID Bracketed Bare
           (str "url=https://host/") (str "/v1") _ _ [str "export A=1"] []);
    reflexivity.
Defined.

(** C6, as stated, fails in three ways.  The double-quoted bracketed form
    of MODEL_ID keeps its double quotes.  A bracketed reference to
    OPENROUTER_API_KEY between two double quotes loses them, and a bare
    one there keeps them.  And the double-quoted form is not found when
    its first double quote closes the double-quoted form before it. *)
Lemma reference_forms_not_all_canonicalized :
  heredoc_env_vars (export_with (str "M=") MODEL_ID QuotedBracketed [])
    <> heredoc_env_vars (export_with (str "M=") MODEL_ID Bracketed [])
  /\ heredoc_env_vars (export_with (str "M=") MODEL_ID QuotedBracketed [])
     = [ dq (str "M=" ++ dq (str "$MODEL_ID")) ]
  /\ heredoc_env_vars (export_with (str "K=" ++ Q) OPENROUTER_API_KEY Bracketed Q)
     = [ dq (str "K=$OPENROUTER_API_KEY") ]
  /\ heredoc_env_vars (export_with (str "K=" ++ Q) OPENROUTER_API_KEY Bare Q)
     = [ dq (str "K=" ++ dq (str "$OPENROUTER_API_KEY")) ]
  /\ heredoc_env_vars
       (export_with (str "K=" ++ Q ++ str "${OPENROUTER_API_KEY}")
          OPENROUTER_API_KEY QuotedBracketed [])
     <> heredoc_env_vars
          (export_with (str "K=" ++ Q ++ str "${OPENROUTER_API_KEY}")
             OPENROUTER_API_KEY Bare []).
Proof. repeat split; vm_compute; (reflexivity || discriminate). Qed.

(** * Properties of the batch drivers *)

Lemma run_candidates_app (a b : list (string * text)) (fs : gmap string text) :
  run_candidates (a ++ b) fs
  = match tally (fst (run_candidates a fs)) with
    | None => run_candidates a fs
    | Some _ =>
        (fst (run_candidates a fs)
           ++ fst (run_candidates b (snd (run_candidates a fs))),
         snd (run_candidates b (snd (run_candidates a fs))))
    end.
Proof.
  revert fs. induction a as [|[p ip] a IH]; intros fs; simpl.
  - destruct (run_candidates b fs); reflexivity.
  - destruct (RefactorEnv.refactor_ssh_cloud_script fs p ip) as [[ok|] fs1];
      [|reflexivity].
    rewrite IH. destruct (run_candidates a fs1) as [o1 fs2] eqn:Ea. simpl.
    destruct (tally o1) as [[n k]|]; [|reflexivity].
    destruct (run_candidates b fs2); reflexivity.
Qed.

Lemma refactor_scripts_run cloud ip_var scripts : forall total success fs,
  RefactorEnv.refactor_scripts cloud ip_var scripts total success fs
  = finish total success
      (run_candidates
         (map (fun name => (cloud +:+ "/" +:+ name, ip_var))
            (List.filter (fun name => negb (String.prefix "lib" name)) scripts))
         fs).
Proof.
  induction scripts as [|name more IH]; intros total success fs.
  - unfold finish. simpl. rewrite !Nat.add_0_r. reflexivity.
  - cbn [RefactorEnv.refactor_scripts List.filter].
    destruct (String.prefix "lib" name); cbn [negb]; [apply IH|].
    cbn [map run_candidates].
    destruct (RefactorEnv.refactor_ssh_cloud_script fs (cloud +:+ "/" +:+ name) ip_var)
      as [[ok|] fs1]; [|reflexivity].
    rewrite IH. unfold finish.
    destruct (run_candidates _ fs1) as [outs fs2]. cbn [fst snd tally].
    destruct (tally outs) as [[n k]|]; [|reflexivity].
    f_equal. f_equal. f_equal; [lia | destruct ok; lia].
Qed.

Lemma refactor_clouds_run glob configs : forall total success fs,
  RefactorEnv.refactor_clouds glob configs total success fs
  = finish total success (run_candidates (candidates glob configs) fs).
Proof.
  induction configs as [|[cloud ip_var] more IH]; intros total success fs.
  - unfold finish. simpl. rewrite !Nat.add_0_r. reflexivity.
  - cbn [RefactorEnv.refactor_clouds candidates flat_map].
    destruct (glob cloud) as [scripts|]; [|apply IH].
    rewrite refactor_scripts_run, run_candidates_app. unfold finish at 1.
    destruct (run_candidates _ fs) as [o1 fs1]. cbn [fst snd].
    destruct (tally o1) as [[n k]|] eqn:E1.
    + rewrite IH. unfold finish. cbn [fst snd].
      assert (Htally : forall o2,
                tally (o1 ++ o2)
                = match tally o2 with
                  | Some (n2, k2) => Some (n + n2, k + k2)
                  | None => None
                  end).
      { clear -E1. revert n k E1. induction o1 as [|[ok|] o1 IHo]; intros n k E1 o2.
        - injection E1 as <- <-. simpl. destruct (tally o2) as [[? ?]|]; reflexivity.
        - simpl in E1. destruct (tally o1) as [[n1 k1]|]; [|discriminate].
          injection E1 as <- <-. simpl. rewrite (IHo n1 k1 eq_refl).
          destruct (tally o2) as [[? ?]|]; [|reflexivity].
          destruct ok; reflexivity.
        - discriminate E1. }
      rewrite Htally. destruct (tally (fst (run_candidates _ fs1))) as [[n2 k2]|];
        [|reflexivity].
      f_equal. f_equal. f_equal; lia.
    + unfold finish. cbn [fst snd]. rewrite E1. reflexivity.
Qed.

(** Every outcome is [True] exactly when the two counters agree. *)
Lemma tally_all_transformed outcomes n k :
  tally outcomes = Some (n, k) ->
  n = length outcomes /\ k <= n
  /\ (k = n <-> forallb transformed outcomes = true).
Proof.
  revert n k. induction outcomes as [|[ok|] more IH]; intros n k H; simpl in H.
  - injection H as <- <-. simpl. repeat split; lia.
  - destruct (tally more) as [[n1 k1]|]; [|discriminate].
    injection H as <- <-. destruct (IH n1 k1 eq_refl) as (Hn & Hk & Hiff).
    simpl. destruct ok; simpl.
    + split; [lia|]. split; [lia|]. split.
      * intros Heq. apply Hiff. lia.
      * intros Hall. apply Hiff in Hall. lia.
    + split; [lia|]. split; [lia|]. split; [lia | discriminate].
  - discriminate H.
Qed.

Lemma run_candidates_length cands : forall fs n k,
  tally (fst (run_candidates cands fs)) = Some (n, k) -> n = length cands.
Proof.
  induction cands as [|[p ip] more IH]; intros fs n k H; simpl in *.
  - injection H as <- <-. reflexivity.
  - destruct (RefactorEnv.refactor_ssh_cloud_script fs p ip) as [[ok|] fs1];
      [|discriminate H].
    destruct (run_candidates more fs1) as [outs fs2] eqn:E. simpl in H.
    destruct (tally outs) as [[n1 k1]|] eqn:Et; [|discriminate H].
    injection H as <- <-. f_equal. apply (IH fs1 n1 k1). rewrite E. exact Et.
Qed.

Lemma tally_repeat n : tally (repeat (Ret true) n) = Some (n, n).
Proof. induction n as [|n IH]; simpl; [|rewrite IH]; reflexivity. Qed.

Lemma all_transformed_repeat outcomes :
  forallb transformed outcomes = true ->
  outcomes = repeat (Ret true) (length outcomes).
Proof.
  induction outcomes as [|[[|]|] more IH]; simpl; intros H;
    try discriminate H; [reflexivity|]. f_equal. apply IH. exact H.
Qed.

(** The rewrite of one file touches no other file. *)
Lemma refactor_frame fs filepath ip_var other :
  other <> filepath ->
  snd (RefactorEnv.refactor_ssh_cloud_script fs filepath ip_var) !! other
  = fs !! other.
Proof.
  intros Hne. unfold RefactorEnv.refactor_ssh_cloud_script.
  repeat match goal with
         | |- context [match ?x with _ => _ end] => destruct x
         end; simpl; try reflexivity.
  apply lookup_insert_ne. congruence.
Qed.

Lemma run_candidates_frame cands : forall fs other,
  ~ In other (map fst cands) ->
  snd (run_candidates cands fs) !! other = fs !! other.
Proof.
  induction cands as [|[p ip] more IH]; intros fs other Hnot; [reflexivity|].
  assert (Hne : other <> p) by (intros ->; apply Hnot; left; reflexivity).
  assert (Hmore : ~ In other (map fst more))
    by (intros H; apply Hnot; right; exact H).
  simpl. pose proof (refactor_frame fs p ip other Hne) as Hframe.
  destruct (RefactorEnv.refactor_ssh_cloud_script fs p ip) as [[ok|] fs1];
    simpl in *.
  - specialize (IH fs1 other Hmore).
    destruct (run_candidates more fs1) as [outs fs2].
    simpl in *. rewrite IH, Hframe. reflexivity.
  - exact Hframe.
Qed.

(** C10 (amended).  The driver of the env-injection rewrite leaves with
    status 0 exactly when every script it counted was refactored, and
    with status 1 otherwise; the store it leaves is the one after the
    per-file runs, one after the other, so a script that was refactored
    stays refactored whatever happens to the scripts after it. *)
Theorem env_injection_exit_status
    (glob : string -> option (list string)) (fs : gmap string text) :
  let cands := candidates glob RefactorEnv.cloud_configs in
  let outcomes := fst (run_candidates cands fs) in
  let status := fst (RefactorEnv.exit_status glob fs) in
  let fs' := snd (RefactorEnv.exit_status glob fs) in
  (status = 0 <-> outcomes = repeat (Ret true) (length cands))
  /\ (status = 0 \/ status = 1)
  /\ fs' = snd (run_candidates cands fs)
  /\ (forall before filepath ip_var after fs2,
        cands = before ++ (filepath, ip_var) :: after ->
        ~ In filepath (map fst after) ->
        tally (fst (run_candidates before fs)) <> None ->
        RefactorEnv.refactor_ssh_cloud_script
          (snd (run_candidates before fs)) filepath ip_var = (Ret true, fs2) ->
        fs' !! filepath = fs2 !! filepath).
Proof.
  intros cands outcomes status fs'.
  assert (Hrun : RefactorEnv.exit_status glob fs
                 = (match tally outcomes with
                    | Some (n, k) => if (k =? n)%nat then 0 else 1
                    | None => 1
                    end, snd (run_candidates cands fs))).
  { unfold RefactorEnv.exit_status, RefactorEnv.main.
    rewrite refactor_clouds_run. unfold finish. fold cands. fold outcomes.
    destruct (tally outcomes) as [[n k]|]; reflexivity. }
  subst status fs'. rewrite Hrun. cbn [fst snd].
  split; [|split; [|split]].
  - destruct (tally outcomes) as [[n k]|] eqn:Et.
    + destruct (tally_all_transformed _ _ _ Et) as (Hn & Hk & Hiff).
      pose proof (run_candidates_length cands fs n k Et) as Hlen.
      destruct (Nat.eqb_spec k n) as [Heq|Hne]; split; intros H; try reflexivity.
      * rewrite <- Hlen, Hn. apply all_transformed_repeat. apply Hiff. exact Heq.
      * discriminate H.
      * rewrite H, tally_repeat in Et. injection Et as <- <-. lia.
    + split; [discriminate|]. intros H. rewrite H, tally_repeat in Et. discriminate Et.
  - destruct (tally outcomes) as [[n k]|]; [destruct (k =? n)%nat|]; auto.
  - reflexivity.
  - intros before filepath ip_var after fs2 Hsplit Hnot Hreach Hok.
    rewrite Hsplit, run_candidates_app.
    destruct (tally (fst (run_candidates before fs))); [|congruence].
    cbn [snd run_candidates]. rewrite Hok.
    pose proof (run_candidates_frame after fs2 filepath Hnot) as Hframe.
    destruct (run_candidates after fs2) as [outs fs3]. exact Hframe.
Qed.

Lemma env_injection_exit_status_witness :
  fst (RefactorEnv.exit_status sample_glob sample_store) = 1
  /\ snd (RefactorEnv.exit_status sample_glob sample_store) !! "hetzner/a.sh"%string
     = snd (RefactorEnv.refactor_ssh_cloud_script sample_store "hetzner/a.sh"
              (str "HETZNER_SERVER_IP")) !! "hetzner/a.sh"%string
  /\ snd (RefactorEnv.refactor_ssh_cloud_script sample_store "hetzner/a.sh"
            (str "HETZNER_SERVER_IP")) !! "hetzner/a.sh"%string
     <> sample_store !! "hetzner/a.sh"%string.
Proof.
  destruct (env_injection_exit_status sample_glob sample_store)
    as (Hiff & Hstatus & _ & Hkept).
  split; [|split].
  - destruct Hstatus as [H0 | H1]; [|exact H1].
    apply Hiff in H0. vm_compute in H0. discriminate H0.
  - apply (Hkept [] "hetzner/a.sh"%string (str "HETZNER_SERVER_IP")
             [("hetzner/b.sh"%string, str "HETZNER_SERVER_IP")]).
    + vm_compute. reflexivity.
    + vm_compute. intros [H | []]. discriminate H.
    + vm_compute. discriminate.
    + vm_compute. reflexivity.
  - vm_compute. discriminate.
Defined.

(** C10, as stated, fails for the driver of the scanner: its script ends
    with a bare call of [main], so it leaves with status 0 although the
    only candidate was not transformed (the oracle rejected it). *)
Lemma scanner_driver_exit_ignores_failure :
  fst (fix_file reject_all {[ "x.sh"%string := ln (str "echo $FOO") ]} "x.sh") = false
  /\ fst (FixBraces.exit_status reject_all ["x.sh"%string]
            {[ "x.sh"%string := ln (str "echo $FOO") ]}) = 0.
Proof. split; vm_compute; reflexivity. Qed.

(** * Properties of the matcher *)

Lemma skipn_cons_at (l : text) : forall p c tl,
  skipn p l = c :: tl ->
  nth_error l p = Some c /\ skipn (S p) l = tl /\ p < length l.
Proof.
  induction l as [|x l IH]; intros p c tl H.
  - destruct p; discriminate H.
  - destruct p as [|p].
    + injection H as <- <-. simpl. repeat split; lia.
    + destruct (IH p c tl H) as (H1 & H2 & H3). cbn [nth_error skipn length].
      split; [exact H1|]. split; [exact H2 | lia].
Qed.

Lemma cursor_in_advance content cur c tl :
  cursor_in content cur -> rest cur = c :: tl ->
  cursor_in content (advance c tl cur).
Proof.
  intros [Hle Hcur] Hrest. rewrite Hcur in Hrest. simpl in Hrest.
  destruct (skipn_cons_at content _ _ _ Hrest) as (Hnth & Hskip & Hlt).
  split; simpl; [lia|]. unfold advance, cursor_at. rewrite Hnth, Hskip. reflexivity.
Qed.

Lemma cursor_in_step content b p c tl :
  cursor_in content (Cursor b p (c :: tl)) ->
  cursor_in content (Cursor (Some c) (S p) tl).
Proof.
  intros H. exact (cursor_in_advance content _ c tl H eq_refl).
Qed.

Lemma eat_in content s : forall cur cur',
  cursor_in content cur -> eat s cur = Some cur' ->
  cursor_in content cur' /\ pos cur <= pos cur'.
Proof.
  induction s as [|x s IH]; intros cur cur' Hin H; simpl in H.
  - injection H as <-. split; [exact Hin | lia].
  - destruct (rest cur) as [|c tl] eqn:Er; [discriminate H|].
    destruct (Ascii.eqb x c); [|discriminate H].
    destruct (IH _ _ (cursor_in_advance _ _ _ _ Hin Er) H) as [H1 H2].
    split; [exact H1|]. simpl in H2. lia.
Qed.

Section Cursors.
Context {R : Type} (content : text).

Lemma lazy_repeat_in cls (k : cursor -> option R) x s : forall least b p,
  cursor_in content (Cursor b p s) ->
  lazy_repeat cls k least b p s = Some x ->
  continues content (Cursor b p s) k x.
Proof.
  induction s as [|c tl IH]; intros least b p Hin H.
  - destruct least; simpl in H; [|discriminate H]. unfold or_else in H.
    destruct (k (Cursor b p [])) eqn:Ek; [|discriminate H].
    injection H as <-. exists (Cursor b p []).
    split; [exact Hin|]. split; [lia | exact Ek].
  - assert (Hmore : forall least',
              (if cls c then lazy_repeat cls k least' (Some c) (S p) tl else None)
              = Some x -> continues content (Cursor b p (c :: tl)) k x).
    { intros least' Hm. destruct (cls c); [|discriminate Hm].
      destruct (IH _ _ _ (cursor_in_step _ _ _ _ _ Hin) Hm) as (cur' & H1 & H2 & H3).
      exists cur'. split; [exact H1|]. split; [simpl in *; lia | exact H3]. }
    destruct least as [|least]; simpl in H.
    + unfold or_else in H. destruct (k (Cursor b p (c :: tl))) eqn:Ek.
      * injection H as <-. exists (Cursor b p (c :: tl)).
        split; [exact Hin|]. split; [lia | exact Ek].
      * exact (Hmore 0 H).
    + exact (Hmore least H).
Qed.

Lemma greedy_repeat_in cls (k : cursor -> option R) x s : forall least b p,
  cursor_in content (Cursor b p s) ->
  greedy_repeat cls k least b p s = Some x ->
  continues content (Cursor b p s) k x.
Proof.
  induction s as [|c tl IH]; intros least b p Hin H.
  - destruct least; simpl in H; [|discriminate H].
    exists (Cursor b p []). split; [exact Hin|]. split; [lia | exact H].
  - assert (Hhere : match least with O => k (Cursor b p (c :: tl)) | S _ => None end
                    = Some x -> continues content (Cursor b p (c :: tl)) k x).
    { intros Hh. destruct least; [|discriminate Hh].
      exists (Cursor b p (c :: tl)). split; [exact Hin|]. split; [lia | exact Hh]. }
    simpl in H. destruct (cls c); [|exact (Hhere H)]. unfold or_else in H.
    destruct (greedy_repeat cls k (least - 1) (Some c) (S p) tl) eqn:Eg.
    + injection H as <-.
      destruct (IH _ _ _ (cursor_in_step _ _ _ _ _ Hin) Eg) as (cur' & H1 & H2 & H3).
      exists cur'. split; [exact H1|]. split; [simpl in *; lia | exact H3].
    + exact (Hhere H).
Qed.
End Cursors.

Lemma cursor_in_eta content (cur : cursor) :
  cursor_in content cur ->
  cursor_in content (Cursor (before cur) (pos cur) (rest cur)).
Proof. destruct cur. exact (fun H => H). Qed.

Lemma rmatch_in {R : Type} content r :
  forall cur g (k : cursor -> option text -> option R) x,
    cursor_in content cur ->
    rmatch r cur g k = Some x ->
    exists cur' g',
      cursor_in content cur' /\ pos cur <= pos cur' /\ k cur' g' = Some x.
Proof.
  induction r as [s| |greedy least cls| |r1 IH1 r2 IH2|r1 IH1 r2 IH2|r1 IH1|r1 IH1];
    intros cur g k x Hin H; simpl in H.
  - destruct (eat s cur) as [cur'|] eqn:Ee; [|discriminate H].
    destruct (eat_in _ _ _ _ Hin Ee) as [H1 H2]. exists cur', g. auto.
  - destruct (rest cur) as [|c tl] eqn:Er; [discriminate H|].
    exists (advance c tl cur), g.
    split; [exact (cursor_in_advance _ _ _ _ Hin Er)|]. split; [simpl; lia | exact H].
  - apply cursor_in_eta in Hin. destruct greedy.
    + destruct (greedy_repeat_in content cls _ x _ _ _ _ Hin H) as (cur' & H1 & H2 & H3).
      exists cur', g. auto.
    + destruct (lazy_repeat_in content cls _ x _ _ _ _ Hin H) as (cur' & H1 & H2 & H3).
      exists cur', g. auto.
  - destruct (at_line_start cur); [|discriminate H]. exists cur, g. auto.
  - destruct (IH1 _ _ _ _ Hin H) as (cur1 & g1 & Hin1 & Hle1 & H1).
    destruct (IH2 _ _ _ _ Hin1 H1) as (cur2 & g2 & Hin2 & Hle2 & H2).
    exists cur2, g2. split; [exact Hin2|]. split; [lia | exact H2].
  - unfold or_else in H. destruct (rmatch r1 cur g k) eqn:E1.
    + injection H as <-. exact (IH1 _ _ _ _ Hin E1).
    + exact (IH2 _ _ _ _ Hin H).
  - unfold or_else in H. destruct (rmatch r1 cur g k) eqn:E1.
    + injection H as <-. exact (IH1 _ _ _ _ Hin E1).
    + exists cur, g. auto.
  - destruct (IH1 _ _ _ _ Hin H) as (cur1 & g1 & Hin1 & Hle1 & H1).
    exists cur1, (Some (firstn (pos cur1 - pos cur) (rest cur))). auto.
Qed.

(** A match found at [cur]: it starts there, ends at a cursor of
    [content], and its text is the text between the two. *)
Lemma attempt_in content r must_advance cur m :
  cursor_in content cur ->
  attempt r must_advance cur = Some m ->
  m_start m = pos cur
  /\ cursor_in content (m_after m)
  /\ m_start m <= m_end m
  /\ m_text m = firstn (m_end m - m_start m) (skipn (m_start m) content)
  /\ (must_advance = true -> m_start m < m_end m).
Proof.
  intros Hin H. unfold attempt in H.
  destruct (rmatch_in content r _ _ _ _ Hin H) as (cur' & g' & Hin' & Hle & Hk).
  destruct (must_advance && (pos cur' =? pos cur)%nat) eqn:Ea; [discriminate Hk|].
  injection Hk as <-. unfold m_end. simpl.
  split; [reflexivity|]. split; [exact Hin'|]. split; [exact Hle|]. split.
  - destruct Hin as [_ Hcur]. f_equal.
    change (rest cur = rest (cursor_at content (pos cur))). rewrite <- Hcur. reflexivity.
  - intros ->. simpl in Ea. apply Nat.eqb_neq in Ea. lia.
Qed.

Lemma search_from_in content r m s : forall must_advance b p,
  cursor_in content (Cursor b p s) ->
  search_from r must_advance b p s = Some m ->
  p <= m_start m
  /\ cursor_in content (m_after m)
  /\ m_start m <= m_end m
  /\ m_text m = firstn (m_end m - m_start m) (skipn (m_start m) content)
  /\ (must_advance = true -> p < m_end m).
Proof.
  induction s as [|c tl IH]; intros must_advance b p Hin H; simpl in H;
    unfold or_else in H.
  - destruct (attempt r must_advance (Cursor b p [])) eqn:Ea; [|discriminate H].
    injection H as <-.
    destruct (attempt_in _ _ _ _ _ Hin Ea) as (H1 & H2 & H3 & H4 & H5).
    simpl in H1. split; [lia|]. split; [exact H2|]. split; [exact H3|].
    split; [exact H4|]. intros Hm. specialize (H5 Hm). lia.
  - destruct (attempt r must_advance (Cursor b p (c :: tl))) eqn:Ea.
    + injection H as <-.
      destruct (attempt_in _ _ _ _ _ Hin Ea) as (H1 & H2 & H3 & H4 & H5).
      simpl in H1. split; [lia|]. split; [exact H2|]. split; [exact H3|].
      split; [exact H4|]. intros Hm. specialize (H5 Hm). lia.
    + destruct (IH false _ _ (cursor_in_step _ _ _ _ _ Hin) H) as (H1 & H2 & H3 & H4 & _).
      split; [lia|]. split; [exact H2|]. split; [exact H3|].
      split; [exact H4|]. intros _. lia.
Qed.


Lemma cursor_rest_length content cur :
  cursor_in content cur ->
  length (rest cur) = length content - pos cur /\ rest cur = skipn (pos cur) content.
Proof.
  intros [_ Hcur].
  assert (H : rest cur = skipn (pos cur) content)
    by (change (rest cur = rest (cursor_at content (pos cur))); rewrite <- Hcur; reflexivity).
  split; [rewrite H; apply length_skipn | exact H].
Qed.

(** The substitution loop never runs out of rounds: twice the length of
    the text that is left, and two more, are enough. *)
Lemma sub_from_fuel_enough content r items n : forall m (must_advance : bool) cur,
  cursor_in content cur ->
  2 * length (rest cur) + (if must_advance then 1 else 2) <= n ->
  2 * length (rest cur) + (if must_advance then 1 else 2) <= m ->
  sub_from n r items must_advance cur = sub_from m r items must_advance cur.
Proof.
  induction n as [|n IH]; intros m must_advance cur Hin Hn Hm.
  { destruct must_advance; lia. }
  destruct m as [|m]; [destruct must_advance; lia|].
  cbn [sub_from].
  destruct (search_from r must_advance (before cur) (pos cur) (rest cur))
    as [mt|] eqn:Es; [|reflexivity].
  destruct (search_from_in content r mt _ _ _ _ (cursor_in_eta _ _ Hin) Es)
    as (H1 & H2 & H3 & _ & H5).
  do 2 f_equal.
  destruct (cursor_rest_length _ _ Hin) as [Hlen _].
  destruct (cursor_rest_length _ _ H2) as [Hlen' _].
  pose proof (proj1 H2) as Hend. fold (m_end mt) in Hlen', Hend.
  assert (Hmeasure :
            2 * length (rest (m_after mt))
            + (if (m_end mt =? m_start mt)%nat then 1 else 2)
            < 2 * length (rest cur) + (if must_advance then 1 else 2)).
  { rewrite Hlen, Hlen'. destruct (Nat.eqb_spec (m_end mt) (m_start mt)).
    - destruct must_advance; [specialize (H5 eq_refl)|]; lia.
    - destruct must_advance; lia. }
  apply IH; [exact H2 | lia | lia].
Qed.


(** *** Replacements that are taken as they are *)

Lemma kept_escape_plain e :
  kept_escape e = true ->
  Ascii.eqb e backslash = false /\ Ascii.eqb e "g" = false
  /\ Ascii.eqb e "0" = false /\ is_digit e = false
  /\ simple_escape e = None /\ is_ascii_letter e = false.
Proof.
  intros H. each_char e; try discriminate H; repeat split; reflexivity.
Qed.

Lemma plain_template_parse n : forall s,
  length s <= n ->
  plain_template false s = true ->
  exists items,
    parse_template n 1 s = Some items /\ forall m, expand items m = s.
Proof.
  induction n as [n IH] using lt_wf_ind. intros s Hlen Hplain.
  destruct s as [|c tl].
  { exists []. split; [destruct n; reflexivity | reflexivity]. }
  simpl in Hlen. destruct n as [|n]; [lia|].
  cbn [parse_template]. cbn [plain_template] in Hplain.
  destruct (Ascii.eqb c backslash) eqn:Ec; cbn [negb].
  - destruct tl as [|e tl1]; [discriminate Hplain|].
    cbn [plain_template] in Hplain. apply andb_prop in Hplain as [He Hrest].
    destruct (kept_escape_plain e He) as (_ & -> & -> & -> & -> & ->).
    simpl in Hlen.
    destruct (IH n (Nat.lt_succ_diag_r n) tl1) as (items & Hp & Hx); [lia | exact Hrest|].
    rewrite Hp. exists (Chars [c; e] :: items).
    split; [reflexivity|]. intros m. unfold expand in *. simpl. rewrite Hx. reflexivity.
  - destruct (IH n (Nat.lt_succ_diag_r n) tl) as (items & Hp & Hx); [lia | exact Hplain|].
    rewrite Hp. exists (Chars [c] :: items).
    split; [reflexivity|]. intros m. unfold expand in *. simpl. rewrite Hx. reflexivity.
Qed.

Lemma plain_template_skip (a b : text) :
  no_backslash a = true ->
  plain_template false (a ++ b) = plain_template false b.
Proof.
  induction a as [|c a IH]; [reflexivity|]. simpl. intros H.
  apply andb_prop in H as [Hc Ha]. destruct (Ascii.eqb c backslash); [discriminate Hc|].
  apply IH. exact Ha.
Qed.

Lemma plain_template_continued (b : text) :
  plain_template false (backslash :: newline :: b) = plain_template false b.
Proof. reflexivity. Qed.

Lemma plain_template_arguments (env_vars : list text) (tail : text) :
  forallb no_backslash env_vars = true ->
  plain_template false (env_args env_vars ++ tail) = plain_template false tail.
Proof.
  unfold env_args, continuation.
  induction env_vars as [|v more IH]; [reflexivity|]. intros H.
  cbn [forallb] in H. apply andb_prop in H as [Hv Hmore].
  destruct more as [|v' more'].
  - cbn [join]. apply plain_template_skip. exact Hv.
  - change (join ?sep (v :: v' :: more')) with (v ++ sep ++ join sep (v' :: more')).
    rewrite <- !app_assoc. rewrite plain_template_skip by exact Hv.
    cbn [app str list_ascii_of_string].
    change (plain_template false (" " :: backslash :: newline :: ?x))
      with (plain_template false x).
    change (plain_template false (" " :: " " :: " " :: " " :: ?x))
      with (plain_template false x).
    apply IH. exact Hmore.
Qed.

Lemma word_name_no_backslash name :
  word_name name = true -> no_backslash name = true.
Proof.
  unfold word_name, no_backslash. intros H. apply forallb_forall.
  rewrite forallb_forall in H. intros c Hc. specialize (H c Hc).
  each_char c; try discriminate H; reflexivity.
Qed.

(** The names that [main] passes are such names. *)
Lemma cloud_configs_word_names :
  forallb (fun config => word_name (snd config)) RefactorEnv.cloud_configs = true.
Proof. reflexivity. Qed.

Lemma no_backslash_app a b :
  no_backslash (a ++ b) = no_backslash a && no_backslash b.
Proof. apply forallb_app. Qed.

Lemma replacement_plain server_ip_var env_vars :
  no_backslash server_ip_var = true ->
  forallb no_backslash env_vars = true ->
  plain_template false (RefactorEnv.replacement server_ip_var env_vars) = true.
Proof.
  intros Hip Hvars. unfold RefactorEnv.replacement, ln.
  rewrite plain_template_skip by reflexivity.
  rewrite <- !app_assoc.
  rewrite plain_template_skip by reflexivity.
  unfold dq. rewrite <- !app_assoc.
  rewrite (plain_template_skip Q) by reflexivity.
  cbn [app]. change (plain_template false ("$" :: ?x)) with (plain_template false x).
  rewrite plain_template_skip by exact Hip.
  rewrite (plain_template_skip Q) by reflexivity.
  rewrite plain_template_skip by reflexivity.
  cbn [app]. rewrite plain_template_continued.
  rewrite plain_template_skip by reflexivity.
  rewrite plain_template_arguments by exact Hvars. reflexivity.
Qed.

Lemma no_backslash_replace_from old new s : forall skip,
  no_backslash s = true -> no_backslash new = true ->
  no_backslash (replace_from old new skip s) = true.
Proof.
  induction s as [|c tl IH]; intros skip Hs Hnew; [reflexivity|].
  simpl in Hs. apply andb_prop in Hs as [Hc Htl]. cbn [replace_from].
  destruct skip; [|apply IH; assumption].
  destruct (startswith (c :: tl) old).
  - rewrite no_backslash_app, Hnew. apply IH; assumption.
  - simpl. rewrite Hc. apply IH; assumption.
Qed.

Lemma no_backslash_lstrip s :
  no_backslash s = true -> no_backslash (lstrip s) = true.
Proof.
  induction s as [|c tl IH]; [reflexivity|]. intros H. cbn [lstrip].
  destruct (is_space c); [|exact H].
  simpl in H. apply andb_prop in H as [_ Htl]. apply IH. exact Htl.
Qed.

Lemma no_backslash_rev s : no_backslash s = true -> no_backslash (rev s) = true.
Proof.
  unfold no_backslash. rewrite !forallb_forall. intros H c Hc.
  apply H. apply in_rev. exact Hc.
Qed.

Lemma no_backslash_strip s : no_backslash s = true -> no_backslash (strip s) = true.
Proof.
  intros H. unfold strip, rstrip.
  apply no_backslash_rev, no_backslash_lstrip, no_backslash_rev, no_backslash_lstrip, H.
Qed.

Lemma no_backslash_split_lines s :
  no_backslash s = true -> forallb no_backslash (split_lines s) = true.
Proof.
  induction s as [|c tl IH]; [reflexivity|]. intros H.
  simpl in H. apply andb_prop in H as [Hc Htl]. specialize (IH Htl).
  cbn [split_lines]. destruct (Ascii.eqb c newline); [exact IH|].
  destruct (split_lines tl) as [|piece more]; simpl in *.
  - rewrite Hc. reflexivity.
  - rewrite Hc. exact IH.
Qed.

Lemma no_backslash_export_argument line :
  no_backslash line = true -> no_backslash (export_argument line) = true.
Proof.
  intros H. unfold export_argument, dq, var_line, replace.
  rewrite !no_backslash_app. cbn [andb].
  change (no_backslash Q) with true. rewrite andb_true_r. cbn [andb].
  repeat (apply no_backslash_replace_from; [|reflexivity]). exact H.
Qed.

Lemma no_backslash_heredoc_env_vars h :
  no_backslash h = true -> forallb no_backslash (heredoc_env_vars h) = true.
Proof.
  intros H. rewrite heredoc_env_vars_map. unfold export_lines.
  pose proof (no_backslash_split_lines h H) as Hlines.
  rewrite forallb_forall in Hlines. apply forallb_forall. intros x Hx.
  apply in_map_iff in Hx as (line & <- & Hline).
  apply filter_In in Hline as [Hline _].
  apply in_map_iff in Hline as (l & <- & Hl).
  apply no_backslash_export_argument, no_backslash_strip, Hlines, Hl.
Qed.

(** * The rewrite of a file that holds the idiom once *)



(** Scenario D: without the heredoc terminator no pattern matches,
    the function returns [False] and the file is left as it is. *)
Lemma unterminated_heredoc_unmatched :
  idiom_match (str "HOST_IP") sample_unterminated = None
  /\ RefactorEnv.refactor_ssh_cloud_script
       {[ "do/a.sh"%string := sample_unterminated ]} "do/a.sh" (str "HOST_IP")
     = (Ret false, {[ "do/a.sh"%string := sample_unterminated ]}).
Proof. split; vm_compute; reflexivity. Qed.

(** * The template parser never runs out of rounds *)

Lemma until_gt_length s : forall name after,
  until_gt s = Some (name, after) -> length after < length s.
Proof.
  induction s as [|c tl IH]; intros name after H; simpl in H; [discriminate H|].
  destruct (Ascii.eqb c ">").
  - injection H as <- <-. simpl. lia.
  - destruct (until_gt tl) as [[name' after']|]; [|discriminate H].
    injection H as <- <-. specialize (IH _ _ eq_refl). simpl. lia.
Qed.

Lemma parse_template_fuel_enough groups n : forall m s,
  length s <= n -> length s <= m ->
  parse_template n groups s = parse_template m groups s.
Proof.
  induction n as [|n IH]; intros m s Hn Hm.
  { destruct s; [destruct m; reflexivity | simpl in Hn; lia]. }
  destruct m as [|m]; [destruct s; [reflexivity | simpl in Hm; lia]|].
  destruct s as [|c tl]; [reflexivity|]. cbn [parse_template]. simpl in Hn, Hm.
  assert (Hgo : forall t, length t <= length tl ->
            parse_template n groups t = parse_template m groups t)
    by (intros t Ht; apply IH; lia).
  destruct (negb (Ascii.eqb c backslash)); [rewrite Hgo by lia; reflexivity|].
  destruct tl as [|e tl1]; [reflexivity|]. simpl in Hgo.
  destruct (Ascii.eqb e "g").
  { destruct tl1 as [|lt tl2]; [reflexivity|]. destruct (Ascii.eqb lt "<"); [|reflexivity].
    destruct (until_gt tl2) as [[name after]|] eqn:Eu; [|reflexivity].
    apply until_gt_length in Eu.
    destruct (negb (forallb is_digit name)); [reflexivity|].
    destruct name; [reflexivity|]. rewrite Hgo by (simpl; lia). reflexivity. }
  destruct (Ascii.eqb e "0").
  { destruct tl1 as [|d1 tl2]; [rewrite Hgo by (simpl; lia); reflexivity|].
    destruct (is_octal d1); [|rewrite Hgo by (simpl; lia); reflexivity].
    destruct tl2 as [|d2 tl3]; [rewrite Hgo by (simpl; lia); reflexivity|].
    destruct (is_octal d2); rewrite Hgo by (simpl; lia); reflexivity. }
  destruct (is_digit e).
  { destruct tl1 as [|d1 tl2]; [rewrite Hgo by (simpl; lia); reflexivity|].
    destruct (is_digit d1); [|rewrite Hgo by (simpl; lia); reflexivity].
    destruct tl2 as [|d2 tl3]; [rewrite Hgo by (simpl; lia); reflexivity|].
    destruct (is_octal e && is_octal d1 && is_octal d2);
      [destruct (255 <? octal [e; d1; d2])%nat; [reflexivity|]|];
      rewrite Hgo by (simpl; lia); reflexivity. }
  destruct (simple_escape e); [rewrite Hgo by (simpl; lia); reflexivity|].
  destruct (is_ascii_letter e); [reflexivity|].
  rewrite Hgo by (simpl; lia). reflexivity.
Qed.

(** The sprite variant on a script with the idiom and both optional
    comments: the block from its comment header to the removal of the
    temporary file becomes the log line and one call of the sprite
    helper; what follows the block stays. *)
Lemma sprite_script_rewritten :
  RefactorSprite.refactor_sprite_script {[ "sprite/a.sh"%string := sample_sprite ]}
    "sprite/a.sh"
  = (Ret true, <[ "sprite/a.sh"%string := sample_sprite_rewritten ]>
                 {[ "sprite/a.sh"%string := sample_sprite ]}).
Proof. vm_compute. reflexivity. Qed.

(** * Further properties of the reference scanner *)

(** X2.  The second look at the name never fires: a name that the identifier
    pattern matched is not one of the special names, so the scanner
    brackets every identifier it matches. *)
Theorem matched_identifier_never_skipped (s var_name : text) :
  match_identifier s = Some var_name -> should_skip_variable var_name = false.
Proof.
  unfold match_identifier. destruct s as [|c tl]; [discriminate|].
  destruct (ident_start c) eqn:Ec; [|discriminate]. intros [= <-].
  apply ident_start_plain. exact Ec.
Qed.

Lemma matched_identifier_never_skipped_witness :
  should_skip_variable (str "HOME") = false.
Proof.
  apply (matched_identifier_never_skipped (str "HOME/bin") (str "HOME")).
  reflexivity.
Defined.

Lemma scan_line_no_sigil l : no_sigil l = true -> scan_line l = l.
Proof.
  induction l as [|c tl IH]; [reflexivity|]. simpl. intros H.
  apply andb_prop in H as [Hc Htl].
  rewrite scan_line_char by (destruct (Ascii.eqb c "$"); [discriminate Hc | reflexivity]).
  rewrite IH by exact Htl. reflexivity.
Qed.

(** X3.  A line without a sigil comes back as it is. *)
Theorem line_without_sigil_unchanged (line : text) :
  no_sigil line = true -> add_braces_to_line line = line.
Proof.
  intros H. unfold add_braces_to_line.
  destruct (is_comment_line line); [reflexivity|]. apply scan_line_no_sigil. exact H.
Qed.

Lemma line_without_sigil_unchanged_witness :
  add_braces_to_line (str "echo {a,b} > out.txt") = str "echo {a,b} > out.txt".
Proof. apply line_without_sigil_unchanged. reflexivity. Defined.

Lemma reference_left_plain b c tl :
  Ascii.eqb c "$" = false -> reference_left b (c :: tl) = reference_left false tl.
Proof. intros H. cbn [reference_left]. rewrite H. reflexivity. Qed.

Lemma reference_left_identifier_chars w tl :
  forallb ident_char w = true ->
  reference_left false (w ++ tl) = reference_left false tl.
Proof.
  induction w as [|c w IH]; [reflexivity|]. simpl. intros H.
  apply andb_prop in H as [Hc Hw].
  destruct (ident_char_plain c Hc) as (-> & _). simpl. apply IH. exact Hw.
Qed.

Lemma reference_left_scan l : forall b, reference_left b (scan_line l) = false.
Proof.
  remember (length l) as n eqn:Hn. assert (Hle : length l <= n) by lia.
  clear Hn. revert l Hle. induction n as [|n IH]; intros l Hle b.
  { destruct l; [reflexivity | simpl in Hle; lia]. }
  destruct l as [|c tl]; [reflexivity|]. simpl in Hle.
  destruct (Ascii.eqb c "$") eqn:Ec.
  2:{ rewrite scan_line_char by exact Ec. rewrite reference_left_plain by exact Ec.
      apply IH. lia. }
  apply Ascii.eqb_eq in Ec. subst c.
  destruct tl as [|c1 tl1]; [destruct b; reflexivity|]. simpl in Hle.
  destruct (Ascii.eqb c1 "{") eqn:Eb.
  { apply Ascii.eqb_eq in Eb. subst c1. rewrite scan_line_braced.
    cbn [reference_left]. simpl. rewrite andb_false_r. simpl. apply IH. lia. }
  destruct (char_in c1 special_chars) eqn:Es.
  { rewrite scan_line_special by exact Es.
    destruct (special_char_plain c1 Es) as [_ Hi].
    cbn [reference_left]. rewrite Hi, andb_false_r. cbn [orb].
    replace (Ascii.eqb "$" "$") with true by reflexivity.
    cbn [negb andb orb]. rewrite andb_false_r. cbn [andb orb]. apply IH. lia. }
  destruct (ident_start c1) eqn:Ei.
  - rewrite scan_line_ident by exact Ei.
    destruct (ident_start_plain c1 Ei) as (Hs & _ & _ & Hic & _).
    cbn [reference_left]. simpl. rewrite andb_false_r. simpl.
    rewrite Hs. simpl.
    rewrite reference_left_identifier_chars by apply take_while_all.
    rewrite reference_left_plain by reflexivity.
    apply IH. rewrite length_skipn. lia.
  - pose proof (special_sigil c1 Es) as Hc1.
    rewrite scan_line_sigil, (scan_line_char c1) by assumption.
    cbn [reference_left]. rewrite Ei, andb_false_r, Hc1. cbn [orb andb].
    apply IH. lia.
Qed.

(** X4.  After the scan of a line that is not a comment line, no sigil starts
    an unbracketed reference to an ordinary variable, except directly
    after another sigil. *)
Theorem no_reference_left (line : text) :
  is_comment_line line = false ->
  reference_left false (add_braces_to_line line) = false.
Proof.
  intros H. unfold add_braces_to_line. rewrite H. apply reference_left_scan.
Qed.

Lemma no_reference_left_witness :
  reference_left false (add_braces_to_line (str "cp $SRC/$1 $HOME/$$_$DST")) = false.
Proof. apply no_reference_left. reflexivity. Defined.

(** * Further properties of the per-file driver of the scanner *)

Lemma scan_line_ident_before c pre x s :
  ident_start c = true -> ident_char x = false ->
  let w := take_while ident_char pre in
  scan_line ("$" :: c :: pre ++ x :: s)
  = "$" :: "{" :: c :: w ++ "}" :: scan_line (skipn (length w) pre ++ x :: s).
Proof.
  intros Hc Hx w. rewrite scan_line_ident by exact Hc.
  rewrite take_while_stop by exact Hx. fold w. rewrite skipn_app.
  replace (length w - length pre) with 0
    by (pose proof (take_while_length ident_char pre); subst w; lia).
  reflexivity.
Qed.

(** The scan goes through a newline: it is the scan of what precedes the
    newline, the newline, and the scan of what follows. *)
Lemma scan_line_newline n : forall l s,
  length l <= n ->
  scan_line (l ++ newline :: s) = scan_line l ++ newline :: scan_line s.
Proof.
  induction n as [n IH] using lt_wf_ind. intros l s Hle.
  destruct l as [|x l'].
  { simpl. rewrite scan_line_char by reflexivity. reflexivity. }
  simpl in Hle. destruct n as [|n]; [lia|].
  assert (Hrec : forall p, length p <= length l' ->
            scan_line (p ++ newline :: s) = scan_line p ++ newline :: scan_line s).
  { intros p Hp. apply (IH (length p)); lia. }
  simpl. destruct (Ascii.eqb x "$") eqn:Ex.
  2:{ rewrite !scan_line_char by exact Ex. simpl. f_equal. apply Hrec. lia. }
  apply Ascii.eqb_eq in Ex. subst x. destruct l' as [|y l''].
  { simpl. rewrite scan_line_sigil by reflexivity.
    rewrite scan_line_char by reflexivity. reflexivity. }
  simpl. simpl in Hrec.
  destruct (Ascii.eqb y "{") eqn:Eb.
  { apply Ascii.eqb_eq in Eb. subst y. rewrite !scan_line_braced. simpl.
    do 2 f_equal. apply Hrec. lia. }
  destruct (char_in y special_chars) eqn:Es.
  { rewrite !scan_line_special by exact Es. simpl. do 2 f_equal. apply Hrec. lia. }
  destruct (ident_start y) eqn:Ei.
  - rewrite scan_line_ident_before, scan_line_ident by (exact Ei || reflexivity).
    simpl. rewrite <- app_assoc. simpl. do 5 f_equal.
    apply Hrec. rewrite length_skipn. lia.
  - rewrite !scan_line_sigil by assumption. simpl. f_equal.
    change (y :: l'' ++ newline :: s) with ((y :: l'') ++ newline :: s).
    apply Hrec. simpl. lia.
Qed.

Lemma brace_inserted_no_newline l o :
  brace_inserted l o -> no_newline l = true -> no_newline o = true.
Proof.
  induction 1; simpl; intros Hl; try (apply IHbrace_inserted; exact Hl); [reflexivity|].
  apply andb_prop in Hl as [Hc Hl]. rewrite Hc. apply IHbrace_inserted. exact Hl.
Qed.

Lemma brace_inserted_no_carriage_return l o :
  brace_inserted l o -> no_carriage_return l = true -> no_carriage_return o = true.
Proof.
  induction 1; simpl; intros Hl; try (apply IHbrace_inserted; exact Hl); [reflexivity|].
  apply andb_prop in Hl as [Hc Hl]. rewrite Hc. apply IHbrace_inserted. exact Hl.
Qed.

Lemma brace_inserted_add_braces line :
  brace_inserted line (add_braces_to_line line).
Proof.
  unfold add_braces_to_line. destruct (is_comment_line line);
    [apply brace_inserted_refl | apply brace_inserted_scan].
Qed.

Lemma brace_inserted_lines lines :
  brace_inserted (writelines lines) (writelines (map add_braces_to_line lines)).
Proof.
  unfold writelines. induction lines as [|l more IH]; simpl; [constructor|].
  apply brace_inserted_app; [apply brace_inserted_add_braces | exact IH].
Qed.

Lemma add_braces_twice line :
  add_braces_to_line (add_braces_to_line line) = add_braces_to_line line.
Proof.
  unfold add_braces_to_line.
  destruct (is_comment_line line) eqn:E; [rewrite E; reflexivity|].
  fold (scan_line line). rewrite is_comment_line_scan, E.
  apply scan_line_idempotent.
Qed.

(** The scanner keeps the shape of a line: a line that ends in its
    newline still does, and no newline appears elsewhere. *)
Lemma add_braces_terminated body :
  no_newline body = true ->
  exists body', add_braces_to_line (body ++ [newline]) = body' ++ [newline]
                /\ no_newline body' = true.
Proof.
  intros Hb. unfold add_braces_to_line.
  destruct (is_comment_line (body ++ [newline])); [exists body; auto|].
  fold (scan_line (body ++ [newline])).
  rewrite (scan_line_newline (length body)) by lia.
  exists (scan_line body). split; [reflexivity|].
  exact (brace_inserted_no_newline _ _ (brace_inserted_scan body) Hb).
Qed.

Lemma add_braces_unterminated body :
  no_newline body = true -> body <> [] ->
  no_newline (add_braces_to_line body) = true /\ add_braces_to_line body <> [].
Proof.
  intros Hb Hne. split.
  - exact (brace_inserted_no_newline _ _ (brace_inserted_add_braces body) Hb).
  - unfold add_braces_to_line. destruct (is_comment_line body); [exact Hne|].
    destruct body as [|c tl]; [congruence|].
    fold (scan_line (c :: tl)). destruct (scan_line_head c tl) as [t ->]. discriminate.
Qed.

Lemma lines_shape_readlines s : lines_shape (readlines s).
Proof.
  induction s as [|c tl IH]; [constructor|]. simpl.
  destruct (Ascii.eqb c newline) eqn:Ec.
  - apply Ascii.eqb_eq in Ec. subst c. apply (ls_cons []); [reflexivity | exact IH].
  - inversion IH as [|body Hb Hne Heq|body more Hb Hmore Heq].
    + apply ls_last; [simpl; rewrite Ec; reflexivity | discriminate].
    + apply ls_last; [simpl; rewrite Ec; exact Hb | discriminate].
    + apply (ls_cons (c :: body)); [simpl; rewrite Ec; exact Hb | exact Hmore].
Qed.

Lemma readlines_unterminated body :
  no_newline body = true -> body <> [] -> readlines body = [body].
Proof.
  induction body as [|c tl IH]; [congruence|]. simpl. intros Hb _.
  apply andb_prop in Hb as [Hc Htl].
  destruct (Ascii.eqb c newline); [discriminate Hc|].
  destruct tl as [|d tl']; [reflexivity|].
  rewrite IH by (exact Htl || discriminate). reflexivity.
Qed.

Lemma readlines_terminated body s :
  no_newline body = true ->
  readlines (body ++ newline :: s) = (body ++ [newline]) :: readlines s.
Proof.
  induction body as [|c tl IH]; [reflexivity|]. simpl. intros Hb.
  apply andb_prop in Hb as [Hc Htl].
  destruct (Ascii.eqb c newline); [discriminate Hc|].
  rewrite IH by exact Htl. reflexivity.
Qed.

Lemma readlines_of_lines lines :
  lines_shape lines -> readlines (writelines lines) = lines.
Proof.
  unfold writelines. induction 1 as [|body Hb Hne|body more Hb Hmore IH]; simpl.
  - reflexivity.
  - rewrite app_nil_r. apply readlines_unterminated; assumption.
  - rewrite <- app_assoc. simpl. rewrite readlines_terminated by exact Hb.
    rewrite IH. reflexivity.
Qed.

Lemma lines_shape_add_braces lines :
  lines_shape lines -> lines_shape (map add_braces_to_line lines).
Proof.
  induction 1 as [|body Hb Hne|body more Hb Hmore IH]; simpl.
  - constructor.
  - destruct (add_braces_unterminated body Hb Hne). apply ls_last; assumption.
  - destruct (add_braces_terminated body Hb) as (body' & -> & Hb').
    apply ls_cons; assumption.
Qed.

Lemma universal_newlines_clean n : forall s,
  length s <= n -> no_carriage_return (universal_newlines s) = true.
Proof.
  induction n as [n IH] using lt_wf_ind. intros s Hle.
  destruct s as [|c tl]; [reflexivity|]. simpl in Hle.
  destruct n as [|n]; [lia|]. cbn [universal_newlines].
  destruct (Ascii.eqb c carriage_return) eqn:Ec.
  - cbn [no_carriage_return forallb]. change (Ascii.eqb newline carriage_return) with false.
    cbn [negb andb]. destruct tl as [|c2 tl2]; [reflexivity|]. simpl in Hle.
    destruct (Ascii.eqb c2 newline);
      [apply (IH (length tl2)) | apply (IH (length (c2 :: tl2)))]; simpl; lia.
  - cbn [no_carriage_return forallb]. rewrite Ec. cbn [negb andb].
    apply (IH (length tl)); lia.
Qed.

Lemma text_eqb_refl a : text_eqb a a = true.
Proof. apply text_eqb_eq. reflexivity. Qed.

Lemma lines_eqb_refl a : lines_eqb a a = true.
Proof.
  induction a as [|x a IH]; [reflexivity|]. simpl. rewrite text_eqb_refl. exact IH.
Qed.

Lemma lines_eqb_eq a b : lines_eqb a b = true <-> a = b.
Proof.
  revert b. induction a as [|x a IH]; intros [|y b]; simpl; split;
    try reflexivity; try discriminate.
  - intros H. apply andb_prop in H as [Hx Hab].
    apply text_eqb_eq in Hx. apply IH in Hab. congruence.
  - intros [= -> ->]. rewrite text_eqb_refl. apply IH. reflexivity.
Qed.

(** A file whose lines the scanner leaves as they are is not written. *)
Lemma fix_file_nothing_to_fix bash_n (fs : gmap string text) file_path on_disk :
  fs !! file_path = Some on_disk ->
  map add_braces_to_line (readlines (universal_newlines on_disk))
  = readlines (universal_newlines on_disk) ->
  fix_file bash_n fs file_path = (false, fs).
Proof.
  intros Hfs Hsame. unfold fix_file. rewrite Hfs. cbv zeta.
  rewrite Hsame, lines_eqb_refl. reflexivity.
Qed.

(** The text that [fix_file] writes first is such a file. *)
Lemma rewritten_text_is_fixed on_disk :
  let fixed := map add_braces_to_line (readlines (universal_newlines on_disk)) in
  map add_braces_to_line (readlines (universal_newlines (writelines fixed)))
  = readlines (universal_newlines (writelines fixed)).
Proof.
  intros fixed.
  set (snapshot := universal_newlines on_disk).
  assert (Hclean : no_carriage_return snapshot = true)
    by (apply (universal_newlines_clean (length on_disk)); lia).
  assert (Hw : no_carriage_return (writelines fixed) = true).
  { apply (brace_inserted_no_carriage_return (writelines (readlines snapshot)));
      [apply brace_inserted_lines|]. rewrite readlines_writelines. exact Hclean. }
  rewrite (universal_newlines_id _ Hw).
  assert (Hshape : lines_shape fixed)
    by (apply lines_shape_add_braces, lines_shape_readlines).
  rewrite (readlines_of_lines _ Hshape).
  unfold fixed. rewrite map_map. apply map_ext. intros l. apply add_braces_twice.
Qed.

(** What [fix_file] leaves for a path is settled: on any store that holds
    the same for that path, [fix_file] returns [False] and the store
    stays as it is. *)
Lemma fix_file_settled bash_n fs file_path fs2 :
  fs2 !! file_path = snd (fix_file bash_n fs file_path) !! file_path ->
  fix_file bash_n fs2 file_path = (false, fs2).
Proof.
  unfold fix_file at 1. destruct (fs !! file_path) as [on_disk|] eqn:Hfs.
  2:{ cbn [snd]. rewrite Hfs. intros H. unfold fix_file. rewrite H. reflexivity. }
  cbv zeta.
  set (snapshot := universal_newlines on_disk).
  set (lines := readlines snapshot).
  set (fixed := map add_braces_to_line lines).
  assert (Hclean : no_carriage_return snapshot = true)
    by (apply (universal_newlines_clean (length on_disk)); lia).
  assert (Hlines : writelines lines = snapshot)
    by apply readlines_writelines.
  assert (Hkept : forall fs1 : gmap string text,
            fs2 !! file_path = <[file_path := writelines fixed]> fs1 !! file_path ->
            fix_file bash_n fs2 file_path = (false, fs2)).
  { intros fs1. rewrite lookup_insert_eq. intros H.
    apply (fix_file_nothing_to_fix _ _ _ _ H), rewritten_text_is_fixed. }
  destruct (lines_eqb lines fixed) eqn:Eeq.
  { cbn [snd]. rewrite Hfs. intros H.
    apply (fix_file_nothing_to_fix _ _ _ _ H). fold snapshot. fold lines.
    symmetry. apply lines_eqb_eq. exact Eeq. }
  destruct (bash_n (writelines fixed)) as [[|]|] eqn:Eo; cbn [negb snd].
  - apply Hkept.
  - rewrite lookup_insert_eq. intros H2. unfold fix_file. rewrite H2, Hlines.
    cbv zeta. rewrite (universal_newlines_id _ Hclean).
    fold lines. fold fixed. rewrite Eeq, Eo. cbn [negb].
    f_equal. rewrite insert_insert_eq, Hlines.
    apply insert_id. rewrite H2, Hlines. reflexivity.
  - apply Hkept.
Qed.

(** X5.  A second run of [fix_file] on the same file returns [False] and
    leaves the store of the first run, whatever the first run did. *)
Theorem fix_file_second_run (bash_n : text -> result bool) (fs : gmap string text)
    (file_path : string) :
  fix_file bash_n (snd (fix_file bash_n fs file_path)) file_path
  = (false, snd (fix_file bash_n fs file_path)).
Proof. apply (fix_file_settled bash_n fs). reflexivity. Qed.

(** [fix_file] touches no other file. *)
Lemma fix_file_frame bash_n fs file_path other :
  other <> file_path ->
  snd (fix_file bash_n fs file_path) !! other = fs !! other.
Proof.
  intros Hne. unfold fix_file. destruct (fs !! file_path); [|reflexivity].
  cbv zeta. destruct (lines_eqb _ _); [reflexivity|].
  destruct (bash_n _) as [[|]|]; cbn [negb snd];
    rewrite ?lookup_insert_ne by congruence; reflexivity.
Qed.

(** X6.  When [fix_file] returns [True], the file it leaves is the text it read
    with braces inserted and nothing else changed; it differs from that
    text, and the oracle accepted it. *)
Theorem committed_fix_inserts_braces
    (bash_n : text -> result bool) (fs : gmap string text) (file_path : string) :
  fst (fix_file bash_n fs file_path) = true ->
  exists on_disk fixed,
    fs !! file_path = Some on_disk
    /\ snd (fix_file bash_n fs file_path) !! file_path = Some fixed
    /\ brace_inserted (universal_newlines on_disk) fixed
    /\ fixed <> universal_newlines on_disk
    /\ bash_n fixed = Ret true.
Proof.
  unfold fix_file. destruct (fs !! file_path) as [on_disk|]; [|discriminate].
  cbv zeta. set (lines := readlines (universal_newlines on_disk)).
  set (fixed := map add_braces_to_line lines).
  assert (Hlines : writelines lines = universal_newlines on_disk)
    by apply readlines_writelines.
  destruct (lines_eqb lines fixed) eqn:Eeq; [discriminate|].
  destruct (bash_n (writelines fixed)) as [[|]|] eqn:Eo; cbn [negb fst snd];
    [|discriminate|discriminate].
  intros _. exists on_disk, (writelines fixed). split; [reflexivity|].
  split; [apply lookup_insert_eq|]. split; [|split; [|exact Eo]].
  - rewrite <- Hlines. apply brace_inserted_lines.
  - intros Heq. rewrite <- Hlines in Heq.
    assert (Hsame : readlines (writelines fixed) = readlines (writelines lines))
      by (rewrite Heq; reflexivity).
    rewrite !readlines_of_lines in Hsame
      by (try apply lines_shape_add_braces; apply lines_shape_readlines).
    rewrite Hsame, lines_eqb_refl in Eeq. discriminate Eeq.
Qed.

Lemma committed_fix_inserts_braces_witness :
  exists on_disk fixed,
    ({[ "x.sh"%string := ln (str "echo $FOO") ]} : gmap string text) !! "x.sh"%string
    = Some on_disk
    /\ snd (fix_file accept_all {[ "x.sh"%string := ln (str "echo $FOO") ]} "x.sh")
         !! "x.sh"%string = Some fixed
    /\ brace_inserted (universal_newlines on_disk) fixed
    /\ fixed <> universal_newlines on_disk
    /\ accept_all fixed = Ret true.
Proof.
  apply (committed_fix_inserts_braces accept_all
           {[ "x.sh"%string := ln (str "echo $FOO") ]} "x.sh").
  vm_compute. reflexivity.
Defined.

(** * Further properties of the batch driver of the scanner *)

Lemma fix_all_frame bash_n files : forall fixed_count fs other,
  ~ In other files ->
  snd (fix_all bash_n files fixed_count fs) !! other = fs !! other.
Proof.
  induction files as [|p more IH]; intros fixed_count fs other Hnot; [reflexivity|].
  cbn [fix_all]. pose proof (fix_file_frame bash_n fs p other) as Hframe.
  destruct (fix_file bash_n fs p) as [fixed fs1]. cbn [snd] in Hframe.
  rewrite IH by (intros H; apply Hnot; right; exact H).
  apply Hframe. intros ->. apply Hnot. left. reflexivity.
Qed.

Lemma fix_all_count bash_n files : forall fixed_count fs,
  fixed_count <= fst (fix_all bash_n files fixed_count fs)
  /\ fst (fix_all bash_n files fixed_count fs) <= fixed_count + length files.
Proof.
  induction files as [|p more IH]; intros fixed_count fs; cbn [fix_all].
  - simpl. lia.
  - destruct (fix_file bash_n fs p) as [fixed fs1].
    destruct (IH (if fixed then S fixed_count else fixed_count) fs1) as [H1 H2].
    simpl length. destruct fixed; lia.
Qed.

(** X7.  The driver touches only the files it was given, and the number it
    reports is at most their number. *)
Theorem scanner_driver_frame
    (bash_n : text -> result bool) (shell_files : list string) (fs : gmap string text) :
  (forall other, ~ In other shell_files ->
     snd (main bash_n shell_files fs) !! other = fs !! other)
  /\ fst (main bash_n shell_files fs) <= length shell_files.
Proof.
  unfold main. split.
  - intros other Hnot. apply fix_all_frame. exact Hnot.
  - destruct (fix_all_count bash_n shell_files 0 fs) as [_ H]. exact H.
Qed.

Lemma fix_all_settled bash_n files : forall fixed_count fs file_path fs2,
  NoDup files -> In file_path files ->
  fs2 !! file_path = snd (fix_all bash_n files fixed_count fs) !! file_path ->
  fix_file bash_n fs2 file_path = (false, fs2).
Proof.
  induction files as [|p more IH]; intros fixed_count fs file_path fs2 Hnd Hin H2;
    [destruct Hin|].
  inversion Hnd as [|? ? Hnotin Hnd']; subst. rewrite list_elem_of_In in Hnotin.
  cbn [fix_all] in H2.
  destruct (fix_file bash_n fs p) as [fixed fs1] eqn:Ef.
  destruct Hin as [<- | Hin].
  - rewrite fix_all_frame in H2 by exact Hnotin.
    apply (fix_file_settled bash_n fs p). rewrite Ef. exact H2.
  - exact (IH _ _ _ _ Hnd' Hin H2).
Qed.

Lemma fix_all_nothing_to_do bash_n files : forall fixed_count fs,
  (forall file_path, In file_path files ->
     fix_file bash_n fs file_path = (false, fs)) ->
  fix_all bash_n files fixed_count fs = (fixed_count, fs).
Proof.
  induction files as [|p more IH]; intros fixed_count fs H; [reflexivity|].
  cbn [fix_all]. rewrite (H p) by (left; reflexivity).
  apply IH. intros q Hq. apply H. right. exact Hq.
Qed.

(** X8.  A second run of the driver over the same files, each listed once,
    fixes nothing and leaves the store of the first run. *)
Theorem scanner_driver_second_run
    (bash_n : text -> result bool) (shell_files : list string) (fs : gmap string text) :
  NoDup shell_files ->
  main bash_n shell_files (snd (main bash_n shell_files fs))
  = (0, snd (main bash_n shell_files fs)).
Proof.
  intros Hnd. unfold main. apply fix_all_nothing_to_do.
  intros file_path Hin.
  apply (fix_all_settled bash_n shell_files 0 fs); [exact Hnd | exact Hin | reflexivity].
Qed.

Lemma scanner_driver_second_run_witness :
  main accept_all ["x.sh"%string; "y.sh"%string]
    (snd (main accept_all ["x.sh"%string; "y.sh"%string]
            {[ "x.sh"%string := ln (str "echo $FOO") ;
               "y.sh"%string := ln (str "echo $1") ]}))
  = (0, snd (main accept_all ["x.sh"%string; "y.sh"%string]
              {[ "x.sh"%string := ln (str "echo $FOO") ;
                 "y.sh"%string := ln (str "echo $1") ]})).
Proof.
  apply scanner_driver_second_run.
  repeat (constructor; [rewrite list_elem_of_In; simpl; intuition discriminate|]).
  constructor.
Defined.

(** * Properties of [extract_env_vars] *)

Lemma split_lines_newline a b :
  no_newline a = true -> split_lines (a ++ newline :: b) = a :: split_lines b.
Proof.
  induction a as [|c a IH]; [reflexivity|]. simpl. intros H.
  apply andb_prop in H as [Hc Ha].
  destruct (Ascii.eqb c newline); [discriminate Hc|]. rewrite IH by exact Ha.
  reflexivity.
Qed.

Lemma split_lines_join lines :
  lines <> [] -> forallb no_newline lines = true ->
  split_lines (join [newline] lines) = lines.
Proof.
  induction lines as [|l more IH]; [congruence|]. intros _ H.
  cbn [forallb] in H. apply andb_prop in H as [Hl Hmore].
  destruct more as [|l2 more'].
  - simpl. apply split_lines_one_line. exact Hl.
  - change (join [newline] (l :: l2 :: more'))
      with (l ++ newline :: join [newline] (l2 :: more')).
    rewrite split_lines_newline by exact Hl.
    rewrite IH by (discriminate || exact Hmore). reflexivity.
Qed.

Lemma export_lines_join body :
  forallb no_newline body = true ->
  export_lines (join [newline] body)
  = List.filter (fun line => startswith line (str "export ")) (map strip body).
Proof.
  intros H. unfold export_lines. destruct body as [|l more]; [reflexivity|].
  rewrite split_lines_join by (discriminate || exact H). reflexivity.
Qed.

Lemma contains_head s c m : contains s (c :: m) = true -> In c s.
Proof.
  induction s as [|x s IH]; simpl; [discriminate|]. intros H.
  apply orb_prop in H as [H | H].
  - apply andb_prop in H as [H _]. apply Ascii.eqb_eq in H. left. congruence.
  - right. apply IH. exact H.
Qed.

Lemma in_lstrip c s : In c s -> is_space c = false -> In c (lstrip s).
Proof.
  induction s as [|x s IH]; [intros []|]. intros Hin Hc. cbn [lstrip].
  destruct (is_space x) eqn:Ex; [|exact Hin].
  destruct Hin as [-> | Hin]; [congruence | exact (IH Hin Hc)].
Qed.

Lemma in_strip c s : In c s -> is_space c = false -> In c (strip s).
Proof.
  intros Hin Hc. unfold strip, rstrip.
  apply in_rev. rewrite rev_involutive.
  apply in_lstrip; [|exact Hc]. rewrite <- in_rev.
  apply in_lstrip; assumption.
Qed.

(** A line that is the terminator, give or take white space, holds no
    heredoc opener. *)
Lemma terminator_no_opener line :
  strip line = str "EOF" -> no_opener line = true.
Proof.
  intros H. unfold no_opener.
  destruct (contains line RefactorEnv.env_temp_opener) eqn:E1.
  { apply contains_head in E1. pose proof (in_strip _ _ E1 eq_refl) as H'.
    rewrite H in H'. simpl in H'. intuition discriminate. }
  destruct (contains line RefactorEnv.settings_temp_opener) eqn:E2; [|reflexivity].
  apply contains_head in E2. pose proof (in_strip _ _ E2 eq_refl) as H'.
  rewrite H in H'. simpl in H'. intuition discriminate.
Qed.

Lemma extract_loop_before lines : forall env_vars,
  forallb no_opener lines = true ->
  forall more, RefactorEnv.extract_loop (lines ++ more) false env_vars
               = RefactorEnv.extract_loop more false env_vars.
Proof.
  induction lines as [|line rest IH]; intros env_vars H more; [reflexivity|].
  cbn [forallb] in H. apply andb_prop in H as [Hl Hrest].
  cbn [app RefactorEnv.extract_loop]. unfold no_opener in Hl.
  destruct (contains line RefactorEnv.env_temp_opener
            || contains line RefactorEnv.settings_temp_opener); [discriminate Hl|].
  cbn [andb]. apply IH. exact Hrest.
Qed.

Lemma extract_loop_inside body : forall env_vars terminator post,
  forallb (fun line => no_opener line && negb (text_eqb (strip line) (str "EOF")))
    body = true ->
  strip terminator = str "EOF" ->
  RefactorEnv.extract_loop (body ++ terminator :: post) true env_vars
  = env_vars
      ++ map var_line
           (List.filter (fun line => startswith line (str "export ")) (map strip body)).
Proof.
  induction body as [|line rest IH]; intros env_vars terminator post H Ht.
  - cbn [app RefactorEnv.extract_loop map List.filter].
    pose proof (terminator_no_opener terminator Ht) as Hno. unfold no_opener in Hno.
    destruct (contains terminator RefactorEnv.env_temp_opener
              || contains terminator RefactorEnv.settings_temp_opener);
      [discriminate Hno|].
    rewrite Ht. change (text_eqb (str "EOF") (str "EOF")) with true.
    cbn [andb]. rewrite app_nil_r. reflexivity.
  - cbn [forallb] in H. apply andb_prop in H as [Hl Hrest].
    apply andb_prop in Hl as [Hno Heof]. unfold no_opener in Hno.
    cbn [app RefactorEnv.extract_loop map List.filter].
    destruct (contains line RefactorEnv.env_temp_opener
              || contains line RefactorEnv.settings_temp_opener); [discriminate Hno|].
    destruct (text_eqb (strip line) (str "EOF")); [discriminate Heof|]. cbn [andb].
    destruct (startswith (strip line) (str "export ")).
    + rewrite (IH _ _ _ Hrest Ht). cbn [map]. rewrite <- app_assoc. reflexivity.
    + exact (IH _ _ _ Hrest Ht).
Qed.

(** X9.  Content without a heredoc opener gives no variable. *)
Theorem extract_env_vars_without_opener (content : text) :
  forallb no_opener (split_lines content) = true ->
  RefactorEnv.extract_env_vars content = [].
Proof.
  intros H. unfold RefactorEnv.extract_env_vars.
  rewrite <- (app_nil_r (split_lines content)).
  rewrite extract_loop_before by exact H. reflexivity.
Qed.

Lemma extract_env_vars_without_opener_witness :
  RefactorEnv.extract_env_vars (ln (str "export A=1") ++ ln (str "EOF")) = [].
Proof. apply extract_env_vars_without_opener. vm_compute. reflexivity. Defined.

(** X10.  On content whose first opener line is followed by a body and a
    terminator line, [extract_env_vars] gives the export lines of the
    body, in order, each after the four replacements: what the inline
    loop of the refactor functions gives for that body, without the
    double quotes around each argument.  Lines before the opener and
    after the terminator are not looked at. *)
Theorem extract_env_vars_of_heredoc
    (pre body post : list text) (opener terminator : text) :
  forallb no_newline (pre ++ opener :: body ++ terminator :: post) = true ->
  forallb no_opener pre = true ->
  no_opener opener = false ->
  forallb (fun line => no_opener line && negb (text_eqb (strip line) (str "EOF")))
    body = true ->
  strip terminator = str "EOF" ->
  RefactorEnv.extract_env_vars
    (join [newline] (pre ++ opener :: body ++ terminator :: post))
  = map var_line (export_lines (join [newline] body))
  /\ heredoc_env_vars (join [newline] body)
     = map dq (RefactorEnv.extract_env_vars
                 (join [newline] (pre ++ opener :: body ++ terminator :: post))).
Proof.
  intros Hnl Hpre Hopener Hbody Hterm.
  assert (Hbody_nl : forallb no_newline body = true).
  { rewrite forallb_app in Hnl. apply andb_prop in Hnl as [_ Hnl].
    cbn [forallb] in Hnl. apply andb_prop in Hnl as [_ Hnl].
    rewrite forallb_app in Hnl. apply andb_prop in Hnl as [Hnl _]. exact Hnl. }
  assert (Hextract :
            RefactorEnv.extract_env_vars
              (join [newline] (pre ++ opener :: body ++ terminator :: post))
            = map var_line (export_lines (join [newline] body))).
  { unfold RefactorEnv.extract_env_vars.
    rewrite split_lines_join by (destruct pre; discriminate || exact Hnl).
    rewrite extract_loop_before by exact Hpre.
    cbn [RefactorEnv.extract_loop]. unfold no_opener in Hopener.
    destruct (contains opener RefactorEnv.env_temp_opener
              || contains opener RefactorEnv.settings_temp_opener);
      [|discriminate Hopener].
    rewrite (extract_loop_inside body [] terminator post Hbody Hterm).
    rewrite export_lines_join by exact Hbody_nl. reflexivity. }
  split; [exact Hextract|].
  rewrite Hextract, heredoc_env_vars_map, map_map. reflexivity.
Qed.

Lemma extract_env_vars_of_heredoc_witness :
  RefactorEnv.extract_env_vars
    (join [newline]
       ([str "ENV_TEMP=$(mktemp)"]
        ++ RefactorEnv.env_temp_opener
             :: [str "export A=1"; str "# note"; str "export M=${MODEL_ID}"]
        ++ str "EOF" :: [str "export LATE=1"]))
  = [str "A=1"; str "M=$MODEL_ID"].
Proof.
  destruct (extract_env_vars_of_heredoc
              [str "ENV_TEMP=$(mktemp)"]
              [str "export A=1"; str "# note"; str "export M=${MODEL_ID}"]
              [str "export LATE=1"] RefactorEnv.env_temp_opener (str "EOF"))
    as [H _]; [reflexivity | reflexivity | reflexivity | reflexivity | reflexivity |].
  rewrite H. vm_compute. reflexivity.
Defined.

(** * The capture group always takes part *)

Lemma lazy_repeat_calls {R : Type} cls (k : cursor -> option R) x s :
  forall least b p,
    lazy_repeat cls k least b p s = Some x -> exists cur', k cur' = Some x.
Proof.
  induction s as [|c tl IH]; intros least b p H.
  - destruct least; simpl in H; [|discriminate H]. unfold or_else in H.
    destruct (k (Cursor b p [])) eqn:Ek; [|discriminate H].
    injection H as <-. eauto.
  - assert (Hmore : forall least',
              (if cls c then lazy_repeat cls k least' (Some c) (S p) tl else None)
              = Some x -> exists cur', k cur' = Some x).
    { intros least' Hm. destruct (cls c); [|discriminate Hm]. exact (IH _ _ _ Hm). }
    destruct least as [|least]; simpl in H.
    + unfold or_else in H. destruct (k (Cursor b p (c :: tl))) eqn:Ek.
      * injection H as <-. eauto.
      * exact (Hmore 0 H).
    + exact (Hmore least H).
Qed.

Lemma greedy_repeat_calls {R : Type} cls (k : cursor -> option R) x s :
  forall least b p,
    greedy_repeat cls k least b p s = Some x -> exists cur', k cur' = Some x.
Proof.
  induction s as [|c tl IH]; intros least b p H.
  - destruct least; simpl in H; [|discriminate H]. eauto.
  - assert (Hhere : match least with O => k (Cursor b p (c :: tl)) | S _ => None end
                    = Some x -> exists cur', k cur' = Some x).
    { intros Hh. destruct least; [|discriminate Hh]. eauto. }
    simpl in H. destruct (cls c); [|exact (Hhere H)]. unfold or_else in H.
    destruct (greedy_repeat cls k (least - 1) (Some c) (S p) tl) eqn:Eg.
    + injection H as <-. exact (IH _ _ _ Eg).
    + exact (Hhere H).
Qed.

(** A match of a pattern that always goes through its group hands a
    captured text to the continuation. *)
Lemma rmatch_group {R : Type} r :
  forall cur g (k : cursor -> option text -> option R) x,
    rmatch r cur g k = Some x ->
    exists cur' g',
      k cur' g' = Some x
      /\ (g <> None \/ sets_group r = true -> g' <> None).
Proof.
  induction r as [s| |greedy least cls| |r1 IH1 r2 IH2|r1 IH1 r2 IH2|r1 IH1|r1 IH1];
    intros cur g k x H; simpl in H.
  - destruct (eat s cur) as [cur'|]; [|discriminate H].
    exists cur', g. split; [exact H|]. intros [Hg | Hs]; [exact Hg | discriminate Hs].
  - destruct (rest cur) as [|c tl]; [discriminate H|].
    exists (advance c tl cur), g. split; [exact H|].
    intros [Hg | Hs]; [exact Hg | discriminate Hs].
  - destruct greedy.
    + destruct (greedy_repeat_calls cls _ x _ _ _ _ H) as [cur' Hk].
      exists cur', g. split; [exact Hk|].
      intros [Hg | Hs]; [exact Hg | discriminate Hs].
    + destruct (lazy_repeat_calls cls _ x _ _ _ _ H) as [cur' Hk].
      exists cur', g. split; [exact Hk|].
      intros [Hg | Hs]; [exact Hg | discriminate Hs].
  - destruct (at_line_start cur); [|discriminate H].
    exists cur, g. split; [exact H|]. intros [Hg | Hs]; [exact Hg | discriminate Hs].
  - destruct (IH1 _ _ _ _ H) as (cur1 & g1 & H1 & Hg1).
    destruct (IH2 _ _ _ _ H1) as (cur2 & g2 & H2 & Hg2).
    exists cur2, g2. split; [exact H2|]. cbn [sets_group].
    intros [Hg | Hs].
    + apply Hg2. left. apply Hg1. left. exact Hg.
    + apply orb_prop in Hs as [Hs | Hs].
      * apply Hg2. left. apply Hg1. right. exact Hs.
      * apply Hg2. right. exact Hs.
  - unfold or_else in H. cbn [sets_group]. destruct (rmatch r1 cur g k) eqn:E1.
    + injection H as <-. destruct (IH1 _ _ _ _ E1) as (cur1 & g1 & H1 & Hg1).
      exists cur1, g1. split; [exact H1|]. intros [Hg | Hs]; apply Hg1; [left; exact Hg|].
      apply andb_prop in Hs as [Hs _]. right. exact Hs.
    + destruct (IH2 _ _ _ _ H) as (cur2 & g2 & H2 & Hg2).
      exists cur2, g2. split; [exact H2|]. intros [Hg | Hs]; apply Hg2; [left; exact Hg|].
      apply andb_prop in Hs as [_ Hs]. right. exact Hs.
  - unfold or_else in H. destruct (rmatch r1 cur g k) eqn:E1.
    + injection H as <-. destruct (IH1 _ _ _ _ E1) as (cur1 & g1 & H1 & Hg1).
      exists cur1, g1. split; [exact H1|].
      intros [Hg | Hs]; [apply Hg1; left; exact Hg | discriminate Hs].
    + exists cur, g. split; [exact H|].
      intros [Hg | Hs]; [exact Hg | discriminate Hs].
  - destruct (IH1 _ _ _ _ H) as (cur1 & g1 & H1 & _).
    eexists cur1, _. split; [exact H1|]. intros _. discriminate.
Qed.

Lemma search_from_group r m s : forall must_advance b p,
  sets_group r = true ->
  search_from r must_advance b p s = Some m -> m_group1 m <> None.
Proof.
  assert (Hattempt : forall must_advance cur,
            sets_group r = true ->
            attempt r must_advance cur = Some m -> m_group1 m <> None).
  { intros must_advance cur Hs H. unfold attempt in H.
    destruct (rmatch_group r _ _ _ _ H) as (cur' & g' & Hk & Hg).
    destruct (must_advance && (pos cur' =? pos cur)%nat); [discriminate Hk|].
    injection Hk as <-. simpl. apply Hg. right. exact Hs. }
  induction s as [|c tl IH]; intros must_advance b p Hs H; simpl in H;
    unfold or_else in H.
  - destruct (attempt r must_advance (Cursor b p [])) eqn:Ea; [|discriminate H].
    injection H as <-. exact (Hattempt _ _ Hs Ea).
  - destruct (attempt r must_advance (Cursor b p (c :: tl))) eqn:Ea.
    + injection H as <-. exact (Hattempt _ _ Hs Ea).
    + exact (IH _ _ _ Hs H).
Qed.

(** Whatever the subject, a match of either SSH pattern or of the sprite
    pattern has its heredoc body captured. *)
Lemma idiom_patterns_capture server_ip_var content m :
  search (RefactorEnv.pattern1 server_ip_var) content = Some m
  \/ search (RefactorEnv.pattern2 server_ip_var) content = Some m
  \/ search RefactorSprite.pattern content = Some m ->
  m_group1 m <> None.
Proof.
  intros [H | [H | H]].
  - exact (search_from_group (RefactorEnv.pattern1 server_ip_var) _ _ _ _ _ eq_refl H).
  - exact (search_from_group (RefactorEnv.pattern2 server_ip_var) _ _ _ _ _ eq_refl H).
  - exact (search_from_group RefactorSprite.pattern _ _ _ _ _ eq_refl H).
Qed.

(** * What the rewrite of a file can do to the store *)

(** X11.  For a server variable named in letters, digits and underscores,
    [refactor_ssh_cloud_script] raises only when the file is missing or
    when a pattern matched and the captured heredoc body holds a
    backslash (the replacement is then read as a template with an
    escape). *)
Theorem refactor_raises_only
    (fs : gmap string text) (filepath : string) (server_ip_var : text) :
  word_name server_ip_var = true ->
  fst (RefactorEnv.refactor_ssh_cloud_script fs filepath server_ip_var) = Raise ->
  fs !! filepath = None
  \/ exists on_disk p m h,
       fs !! filepath = Some on_disk
       /\ idiom_match server_ip_var (universal_newlines on_disk) = Some (p, m)
       /\ m_group1 m = Some h
       /\ no_backslash h = false.
Proof.
  intros Hname. pose proof (word_name_no_backslash _ Hname) as Hip.
  unfold RefactorEnv.refactor_ssh_cloud_script, idiom_match.
  destruct (fs !! filepath) as [on_disk|]; [|left; reflexivity].
  set (content := universal_newlines on_disk). intros H. right.
  assert (Hgen : forall p m,
            search p content = Some m ->
            (p = RefactorEnv.pattern1 server_ip_var
             \/ p = RefactorEnv.pattern2 server_ip_var) ->
            fst match m_group1 m with
                | None => (Raise, fs)
                | Some heredoc_content =>
                    match heredoc_env_vars heredoc_content with
                    | [] => (Ret false, fs)
                    | _ :: _ =>
                        match sub p (RefactorEnv.replacement server_ip_var
                                       (heredoc_env_vars heredoc_content)) content with
                        | Raise => (Raise, fs)
                        | Ret new_content =>
                            if text_eqb new_content content then (Ret false, fs)
                            else (Ret true, <[filepath := new_content]> fs)
                        end
                    end
                end = Raise ->
            exists h, m_group1 m = Some h /\ no_backslash h = false).
  { intros p m Hm Hp Hr.
    assert (Hgroup : m_group1 m <> None).
    { apply (idiom_patterns_capture server_ip_var content).
      destruct Hp as [-> | ->]; [left | right; left]; exact Hm. }
    destruct (m_group1 m) as [h|]; [|congruence]. exists h. split; [reflexivity|].
    destruct (heredoc_env_vars h) eqn:Ev; [discriminate Hr|]. rewrite <- Ev in Hr.
    destruct (no_backslash h) eqn:Hh; [|reflexivity]. exfalso.
    set (repl := RefactorEnv.replacement server_ip_var (heredoc_env_vars h)) in Hr.
    assert (Hplain : plain_template false repl = true).
    { apply replacement_plain; [exact Hip|].
      apply no_backslash_heredoc_env_vars. exact Hh. }
    destruct (plain_template_parse (length repl) repl (le_n _) Hplain)
      as (items & Hparse & _).
    unfold sub in Hr. rewrite Hparse in Hr.
    destruct (text_eqb _ content); discriminate Hr. }
  destruct (search (RefactorEnv.pattern1 server_ip_var) content) as [m1|] eqn:E1.
  - rewrite E1 in H. destruct (Hgen _ _ E1 (or_introl eq_refl) H) as (h & Hg & Hb).
    exists on_disk, (RefactorEnv.pattern1 server_ip_var), m1, h.
    fold content. rewrite E1. auto.
  - destruct (search (RefactorEnv.pattern2 server_ip_var) content) as [m2|] eqn:E2;
      [|discriminate H].
    destruct (Hgen _ _ E2 (or_intror eq_refl) H) as (h & Hg & Hb).
    exists on_disk, (RefactorEnv.pattern2 server_ip_var), m2, h.
    fold content. rewrite E1, E2. auto.
Qed.

Lemma refactor_raises_only_witness :
  ({[ "do/a.sh"%string := sample_bad_escape ]} : gmap string text) !! "do/a.sh"%string
  = None
  \/ exists on_disk p m h,
       ({[ "do/a.sh"%string := sample_bad_escape ]} : gmap string text)
         !! "do/a.sh"%string = Some on_disk
       /\ idiom_match (str "HOST_IP") (universal_newlines on_disk) = Some (p, m)
       /\ m_group1 m = Some h
       /\ no_backslash h = false.
Proof.
  apply (refactor_raises_only {[ "do/a.sh"%string := sample_bad_escape ]}
           "do/a.sh" (str "HOST_IP")).
  - reflexivity.
  - vm_compute. reflexivity.
Defined.

(** X12.  Both rewrite functions write only when they return [True], and then
    only the file they were given, with a text that differs from the
    text they read; when they return [False] or raise, the store is the
    one they started from. *)
Theorem rewrite_writes_only_on_success
    (fs : gmap string text) (filepath : string) (server_ip_var : text) :
  (forall r fs',
     RefactorEnv.refactor_ssh_cloud_script fs filepath server_ip_var = (r, fs') ->
     (r <> Ret true /\ fs' = fs)
     \/ (r = Ret true
         /\ exists on_disk new_content,
              fs !! filepath = Some on_disk
              /\ new_content <> universal_newlines on_disk
              /\ fs' = <[filepath := new_content]> fs))
  /\ (forall r fs',
        RefactorSprite.refactor_sprite_script fs filepath = (r, fs') ->
        (r <> Ret true /\ fs' = fs)
        \/ (r = Ret true
            /\ exists on_disk new_content,
                 fs !! filepath = Some on_disk
                 /\ new_content <> universal_newlines on_disk
                 /\ fs' = <[filepath := new_content]> fs)).
Proof.
  split; intros r fs';
    [unfold RefactorEnv.refactor_ssh_cloud_script
    | unfold RefactorSprite.refactor_sprite_script];
    (destruct (fs !! filepath) as [on_disk|];
     [|intros [= <- <-]; left; split; [discriminate | reflexivity]]);
    repeat match goal with
           | |- context [match search ?p ?c with _ => _ end] =>
               destruct (search p c)
           | |- context [match m_group1 ?m with _ => _ end] => destruct (m_group1 m)
           | |- context [match heredoc_env_vars ?h with _ => _ end] =>
               destruct (heredoc_env_vars h)
           | |- context [match sub ?p ?r ?c with _ => _ end] => destruct (sub p r c)
           | |- context [if text_eqb ?a ?b then _ else _] =>
               destruct (text_eqb a b) eqn:?
           end;
    intros [= <- <-];
    try (left; split; [discriminate | reflexivity]);
    right; (split; [reflexivity|]);
    match goal with
    | H : text_eqb ?a ?b = false |- _ =>
        exists on_disk, a; split; [reflexivity|]; split; [|reflexivity];
        intros Heq; rewrite Heq, (proj2 (text_eqb_eq _ _) eq_refl) in H; discriminate H
    end.
Qed.

(** * Which files the env-injection driver can touch *)

Lemma candidates_in glob configs filepath ip_var :
  In (filepath, ip_var) (candidates glob configs) ->
  exists cloud scripts name,
    In (cloud, ip_var) configs /\ glob cloud = Some scripts /\ In name scripts
    /\ String.prefix "lib" name = false
    /\ filepath = cloud +:+ "/" +:+ name.
Proof.
  unfold candidates. intros H. apply in_flat_map in H as ([cloud ip] & Hcfg & H).
  destruct (glob cloud) as [scripts|] eqn:Hg; [|destruct H].
  apply in_map_iff in H as (name & [= <- <-] & Hname).
  apply filter_In in Hname as [Hname Hlib].
  exists cloud, scripts, name. repeat split; try assumption.
  destruct (String.prefix "lib" name); [discriminate Hlib | reflexivity].
Qed.

(** X13.  The driver leaves a file as it is unless the file is a script that
    [glob] lists in one of the four cloud directories and whose name does
    not start with [lib]: library scripts, scripts of other directories
    and everything else are never written. *)
Theorem env_injection_driver_frame
    (glob : string -> option (list string)) (fs : gmap string text)
    (other : string) :
  (forall cloud ip_var scripts name,
     In (cloud, ip_var) RefactorEnv.cloud_configs ->
     glob cloud = Some scripts -> In name scripts ->
     String.prefix "lib" name = false ->
     other <> cloud +:+ "/" +:+ name) ->
  snd (RefactorEnv.exit_status glob fs) !! other = fs !! other.
Proof.
  intros Hother.
  assert (Hstore : snd (RefactorEnv.exit_status glob fs)
                   = snd (run_candidates (candidates glob RefactorEnv.cloud_configs) fs)).
  { unfold RefactorEnv.exit_status, RefactorEnv.main.
    rewrite refactor_clouds_run. unfold finish.
    destruct (tally _) as [[n k]|]; reflexivity. }
  rewrite Hstore. apply run_candidates_frame.
  intros Hin. apply in_map_iff in Hin as ([p ip] & Hp & Hin). simpl in Hp. subst p.
  destruct (candidates_in _ _ _ _ Hin) as (cloud & scripts & name & H1 & H2 & H3 & H4 & H5).
  exact (Hother cloud ip scripts name H1 H2 H3 H4 H5).
Qed.

Lemma env_injection_driver_frame_witness :
  snd (RefactorEnv.exit_status sample_glob_with_lib sample_store_with_lib)
    !! "hetzner/lib_common.sh"%string
  = sample_store_with_lib !! "hetzner/lib_common.sh"%string.
Proof.
  apply env_injection_driver_frame.
  intros cloud ip_var scripts name Hcfg Hglob Hname Hlib.
  simpl in Hcfg.
  destruct Hcfg as [Hcfg | [Hcfg | [Hcfg | [Hcfg | []]]]];
    injection Hcfg as <- <-; vm_compute in Hglob; try discriminate Hglob.
  injection Hglob as <-. simpl in Hname.
  destruct Hname as [<- | [<- | []]]; [discriminate | discriminate Hlib].
Defined.

(** * The driver of the sprite rewrite *)

Lemma sprite_scripts_run scripts : forall total success fs,
  RefactorSprite.refactor_scripts scripts total success fs
  = finish total success (sprite_run (sprite_candidates scripts) fs).
Proof.
  unfold sprite_candidates.
  induction scripts as [|name more IH]; intros total success fs.
  - unfold finish. simpl. rewrite !Nat.add_0_r. reflexivity.
  - cbn [RefactorSprite.refactor_scripts List.filter].
    destruct (String.prefix "lib" name); cbn [negb]; [apply IH|].
    cbn [map sprite_run].
    destruct (RefactorSprite.refactor_sprite_script fs ("sprite/" +:+ name))
      as [[ok|] fs1]; [|reflexivity].
    rewrite IH. unfold finish.
    destruct (sprite_run _ fs1) as [outs fs2]. cbn [fst snd tally].
    destruct (tally outs) as [[n k]|]; [|reflexivity].
    f_equal. f_equal. f_equal; [lia | destruct ok; lia].
Qed.

Lemma sprite_run_length cands : forall fs n k,
  tally (fst (sprite_run cands fs)) = Some (n, k) -> n = length cands.
Proof.
  induction cands as [|p more IH]; intros fs n k H; simpl in *.
  - injection H as <- <-. reflexivity.
  - destruct (RefactorSprite.refactor_sprite_script fs p) as [[ok|] fs1];
      [|discriminate H].
    destruct (sprite_run more fs1) as [outs fs2] eqn:E. simpl in H.
    destruct (tally outs) as [[n1 k1]|] eqn:Et; [|discriminate H].
    injection H as <- <-. f_equal. apply (IH fs1 n1 k1). rewrite E. exact Et.
Qed.

(** X14.  The driver of the sprite rewrite leaves with status 1 and an
    untouched store when the sprite directory does not exist; otherwise
    it leaves with status 0 exactly when every script it counted was
    refactored, with status 1 if not, and with the store that the
    per-file runs leave. *)
Theorem sprite_exit_status (fs : gmap string text) :
  RefactorSprite.exit_status None fs = (1, fs)
  /\ forall scripts,
       let cands := sprite_candidates scripts in
       let outcomes := fst (sprite_run cands fs) in
       let status := fst (RefactorSprite.exit_status (Some scripts) fs) in
       (status = 0 <-> outcomes = repeat (Ret true) (length cands))
       /\ (status = 0 \/ status = 1)
       /\ snd (RefactorSprite.exit_status (Some scripts) fs)
          = snd (sprite_run cands fs).
Proof.
  split; [reflexivity|]. intros scripts cands outcomes status.
  assert (Hrun : RefactorSprite.exit_status (Some scripts) fs
                 = (match tally outcomes with
                    | Some (n, k) => if (k =? n)%nat then 0 else 1
                    | None => 1
                    end, snd (sprite_run cands fs))).
  { unfold RefactorSprite.exit_status, RefactorSprite.main.
    rewrite sprite_scripts_run. unfold finish. fold cands. fold outcomes.
    destruct (tally outcomes) as [[n k]|]; reflexivity. }
  subst status. rewrite Hrun. cbn [fst snd].
  split; [|split; [|reflexivity]].
  - destruct (tally outcomes) as [[n k]|] eqn:Et.
    + destruct (tally_all_transformed _ _ _ Et) as (Hn & Hk & Hiff).
      pose proof (sprite_run_length cands fs n k Et) as Hlen.
      destruct (Nat.eqb_spec k n) as [Heq|Hne]; split; intros H; try reflexivity.
      * rewrite <- Hlen, Hn. apply all_transformed_repeat. apply Hiff. exact Heq.
      * discriminate H.
      * rewrite H, tally_repeat in Et. injection Et as <- <-. lia.
    + split; [discriminate|]. intros H. rewrite H, tally_repeat in Et. discriminate Et.
  - destruct (tally outcomes) as [[n k]|]; [destruct (k =? n)%nat|]; auto.
Qed.

(** * The sprite rewrite of a file that holds the idiom once *)



